(** * ATS keyword matching: text extraction, tokenizer, matcher, score

    A shallow embedding of [jobs/utils.py] (and of the application
    boundary in [jobs/views.py]) together with the properties its
    specification states about it.

    Text is Stdlib's [string]; its 8-bit characters are read as the code
    points U+0000..U+00FF of a Python [str], and [lower], [isspace] and
    the regular expression class [\w] follow Python on that range. *)

From Stdlib Require Import String Ascii List ZArith QArith Bool Lia Floats.
From stdpp Require Import gmap strings list sorting.

Open Scope string_scope.
Open Scope list_scope.
Open Scope nat_scope.

(** ** Characters *)

Module Char.

Definition code (c : ascii) : N := N_of_ascii c.

Definition between (lo hi : N) (c : ascii) : bool :=
  ((lo <=? code c) && (code c <=? hi))%N.

Definition is_code (n : N) (c : ascii) : bool := (code c =? n)%N.

(** [str.lower] on one character: A-Z, and the Latin-1 capitals
    U+00C0..U+00DE without the multiplication sign U+00D7. *)
Definition is_upper (c : ascii) : bool :=
  between 65 90 c || (between 192 222 c && negb (is_code 215 c)).

Definition lower (c : ascii) : ascii :=
  if is_upper c then ascii_of_N (code c + 32) else c.

(** [str.isspace], the characters [str.strip] removes. *)
Definition isspace (c : ascii) : bool :=
  between 9 13 c || between 28 32 c || is_code 133 c || is_code 160 c.

(** The class [[a-zA-Z0-9+#\.\-]] of the tokenizer's pattern. *)
Definition in_class (c : ascii) : bool :=
  between 97 122 c || between 65 90 c || between 48 57 c
  || is_code 43 c || is_code 35 c || is_code 46 c || is_code 45 c.

(** [\w] of a [str] pattern: alphanumeric characters and the underscore. *)
Definition is_word (c : ascii) : bool :=
  between 48 57 c || between 65 90 c || is_code 95 c || between 97 122 c
  || is_code 170 c || between 178 179 c || is_code 181 c
  || between 185 186 c || between 188 190 c
  || between 192 214 c || between 216 246 c || between 248 255 c.

End Char.

(** ** Strings *)

Module Str.

Definition chars (s : string) : list ascii := list_ascii_of_string s.
Definition of_chars (l : list ascii) : string := string_of_list_ascii l.

Definition lower (s : string) : string :=
  of_chars (map Char.lower (chars s)).

Fixpoint lstrip (l : list ascii) : list ascii :=
  match l with
  | c :: l' => if Char.isspace c then lstrip l' else l
  | [] => []
  end.

Definition rstrip (l : list ascii) : list ascii := rev (lstrip (rev l)).

(** [s.strip()] *)
Definition strip (s : string) : string :=
  of_chars (rstrip (lstrip (chars s))).

(** [sep.join(ls)] *)
Definition join (sep : string) (ls : list string) : string :=
  String.concat sep ls.

(** [k in s] on two strings: [k] occurs in [s] at some offset. *)
Fixpoint contains (k s : string) : bool :=
  String.prefix k s ||
  match s with
  | String _ s' => contains k s'
  | EmptyString => false
  end.

(** [k in l] on a list of strings. *)
Definition mem (k : string) (l : list string) : bool :=
  existsb (String.eqb k) l.

(** Truthiness of a [str]: the empty string alone is false. *)
Definition truthy (s : string) : bool :=
  match s with EmptyString => false | String _ _ => true end.

End Str.

(** ** The pattern [\b[a-zA-Z0-9+#\.\-]+\b] under [re.findall] *)

Module Regex.

(** [\b] between two neighbours; [None] is the start or the end of the
    text, which counts as a non-word character. *)
Definition word_of (o : option ascii) : bool :=
  match o with Some c => Char.is_word c | None => false end.

Definition boundary (prev next : option ascii) : bool :=
  xorb (word_of prev) (word_of next).

(** The greedy [+] with its backtracking: [c] is the last character
    consumed so far; the result is how many more characters of [rest] the
    longest successful match takes, the closing [\b] included. *)
Fixpoint best (c : ascii) (rest : list ascii) : option nat :=
  let here := if boundary (Some c) (head rest) then Some 0 else None in
  match rest with
  | d :: rest' =>
      if Char.in_class d then
        match best d rest' with
        | Some n => Some (S n)
        | None => here
        end
      else here
  | [] => here
  end.

(** The scan of [re.findall]: leftmost match, then resume right after it.
    [prev] is the character before the current position, [skip] counts the
    characters of the last match still to step over. *)
Fixpoint findall_from (prev : option ascii) (skip : nat) (l : list ascii)
  : list (list ascii) :=
  match l with
  | [] => []
  | c :: rest =>
      match skip with
      | S k => findall_from (Some c) k rest
      | O =>
          if boundary prev (Some c) && Char.in_class c then
            match best c rest with
            | Some n => (c :: take n rest) :: findall_from (Some c) n rest
            | None => findall_from (Some c) 0 rest
            end
          else findall_from (Some c) 0 rest
      end
  end.

Definition findall (s : string) : list string :=
  map Str.of_chars (findall_from None 0 (Str.chars s)).

End Regex.

(** ** [normalize_tokens] *)

Definition normalize_tokens (text : string) : list string :=
  if negb (Str.truthy text) then []
  else Regex.findall (Str.lower text).

(** ** Results of calls that may raise *)

(** The exceptions a call may raise, all of them instances of
    [Exception], which is what the [except Exception] clauses of the
    source catch. *)
Inductive exn : Type :=
  | TypeError
  | ValueError
  | OSError
  | AttributeError
  | PackageNotFoundError
  | LibraryError (msg : string).

Inductive result (A : Type) : Type :=
  | Ok (a : A)
  | Raise (e : exn).

Arguments Ok {A} a.
Arguments Raise {A} e.

(** ** The optional libraries bound at import time

    [fuzz] is [rapidfuzz.fuzz] (its [partial_ratio], a float from 0 to
    100); [extract_text_from_pdf] is pdfminer's extractor and [docx] is
    python-docx, both read as functions of the bytes of the file at the
    path they are given. Each is [None] when its import failed. [docx]
    yields the text of every paragraph of the document, in order. *)

Record libs : Type := {
  _HAS_RAPIDFUZZ : bool;
  fuzz : option (string → string → result float);
  extract_text_from_pdf : option (string → result string);
  docx : option (string → result (list string));
}.

(** ** The keyword matcher of [compute_ats_score] *)

Inductive tier : Type := Exact | Substring | Fuzzy.

(** The branch of the [if]/[elif]/[elif] chain that sets [matched_flag];
    [None] when the flag stays [False]. *)
Definition match_tier (L : libs) (fuzzy_threshold : float)
    (k : string) (resume_tokens : list string) (rt : string) : option tier :=
  if Str.mem k resume_tokens then Some Exact
  else if Str.contains k rt then Some Substring
  else
    match _HAS_RAPIDFUZZ L, fuzz L with
    | true, Some partial_ratio =>
        match partial_ratio k rt with
        | Ok score =>
            if PrimFloat.leb fuzzy_threshold score then Some Fuzzy else None
        | Raise _ => None
        end
    | _, _ => None
    end.

Definition matched_flag (L : libs) (fuzzy_threshold : float)
    (k : string) (resume_tokens : list string) (rt : string) : bool :=
  match match_tier L fuzzy_threshold k resume_tokens rt with
  | Some _ => true
  | None => false
  end.

(** ** The score

    The score is a binary64 float, computed as Python computes it: the
    quotient of the two lengths and the product by [100.0] are rounded to
    the nearest float, and [round(x, 1)] rounds the value of that float to
    one decimal. *)

(** Rounding to the nearest integer, ties to the even one. *)
Definition round_half_even (q : Q) : Z :=
  let n := Qnum q in
  let d := Zpos (Qden q) in
  let f := (n / d)%Z in
  let r := (n mod d)%Z in
  if (2 * r <? d)%Z then f
  else if (d <? 2 * r)%Z then (f + 1)%Z
  else if Z.even f then f else (f + 1)%Z.

(** The float of an integer, exact below [2^53]. *)
Definition float_of_Z (z : Z) : float := PrimFloat.of_uint63 (Uint63.of_Z z).

(** The rational a finite float stands for. *)
Definition exact (x : float) : Q :=
  match Prim2SF x with
  | S754_finite s m e =>
      let v := (inject_Z (Zpos m) * Qpower 2 e)%Q in
      if s then (- v)%Q else v
  | _ => 0%Q
  end.

(** [round(x, 1)] on a float: the decimal with one digit nearest to the
    value of [x], ties to the even digit, then the float nearest to that
    decimal. *)
Definition round1 (x : float) : float :=
  (float_of_Z (round_half_even (exact x * 10)) / 10)%float.

(** [len(l)] as an operand of the true division. *)
Definition len {A : Type} (l : list A) : float :=
  float_of_Z (Z.of_nat (length l)).

(** ** [compute_ats_score] *)

Section Score.

Variable L : libs.

(** One turn of the loop over [job_keywords]; the state is the pair of
    the lists [matched] and [missing]. *)
Definition score_step (fuzzy_threshold : float)
    (resume_tokens : list string) (rt : string)
    (st : list string * list string) (kw : string)
  : list string * list string :=
  let '(matched, missing) := st in
  if negb (Str.truthy kw) then st
  else
    let k := Str.lower (Str.strip kw) in
    if matched_flag L fuzzy_threshold k resume_tokens rt
    then (matched ++ [kw], missing)
    else (matched, missing ++ [kw]).

Definition compute_ats_score (job_keywords : list string)
    (resume_text : string) (fuzzy_threshold : float)
  : float * list string * list string :=
  let resume_tokens := normalize_tokens resume_text in
  let rt := Str.join " " resume_tokens in
  let '(matched, missing) :=
    fold_left (score_step fuzzy_threshold resume_tokens rt)
              job_keywords ([], []) in
  let total :=
    match job_keywords with [] => 1%float | _ :: _ => len job_keywords end in
  let score_percent := round1 (100 * (len matched / total))%float in
  (score_percent, matched, missing).

End Score.

Definition default_threshold : float := 80.

(** ** [resume_json_to_text]

    A structured resume record is the dict the resume builder stores: the
    sections have the types the builder gives them, and any key may be
    absent, which is what [dict.get] with its default covers. *)

Record resume_json : Type := {
  personal : option (gmap string string);
  summary : option string;
  education : option (list (gmap string string));
  experience : option (list (gmap string string));
  projects : option (list (gmap string string));
  skills : option (list string);
  achievements : option string;
}.

Definition nl : string := String (ascii_of_nat 10) EmptyString.

(** [d.get(k, '')] *)
Definition get_str (d : gmap string string) (k : string) : string :=
  default "" (d !! k).

(** [' '.join(e.get(k,'') for k in keys)] *)
Definition join_fields (keys : list string) (e : gmap string string) : string :=
  Str.join " " (map (get_str e) keys).

(** A [for] loop whose body appends one line to [parts]. *)
Definition append_each (keys : list string)
    (entries : list (gmap string string)) (parts : list string) : list string :=
  fold_left (λ parts e, parts ++ [join_fields keys e]) entries parts.

Definition education_keys : list string :=
  ["school"; "degree"; "details"; "duration"].
Definition experience_keys : list string :=
  ["title"; "company"; "description"; "duration"].
Definition project_keys : list string :=
  ["title"; "tech"; "description"; "duration"].

Definition resume_json_to_text (r : resume_json) : string :=
  let parts := [] in
  let personal := default ∅ (personal r) in
  let parts := parts ++ [get_str personal "full_name"] in
  let parts := parts ++ [get_str personal "headline"] in
  let parts := parts ++ [get_str personal "location"] in
  let parts := parts ++ [default "" (summary r)] in
  let parts := append_each education_keys (default [] (education r)) parts in
  let parts := append_each experience_keys (default [] (experience r)) parts in
  let parts := append_each project_keys (default [] (projects r)) parts in
  let parts := parts ++ [Str.join " " (default [] (skills r))] in
  let parts := parts ++ [default "" (achievements r)] in
  Str.join nl (filter (λ p, Str.truthy p = true) parts).

(** ** Files, streams and calls that raise

    The failures that are modelled: [read] and [seek] raise on a closed
    stream, [seek] on a stream that cannot seek, [write] when it is
    handed a [str], [unlink] and the parsers on a path that does not
    exist, and the parsers on bytes they reject. The disk itself does not
    fail. *)

(** What [read()] hands back: [bytes] from a binary stream, [str] from a
    text one. *)
Inductive payload : Type :=
  | Bytes (b : string)
  | Text (s : string).

(** The uploaded file: the [name] attribute ([None] when absent or
    [None]), the content with the read position, and what the object
    supports. *)
Record stream : Type := {
  name : option string;
  binary : bool;
  content : string;
  pos : nat;
  seekable : bool;
  closed : bool;
}.

(** The state a call can see and change: the files on disk, by path, and
    the upload. *)
Record world : Type := {
  fs : gmap nat string;
  upload : stream;
}.

Definition M (S A : Type) : Type := S → result A * S.

Definition raise {S A} (e : exn) : M S A := λ s, (Raise e, s).

#[global] Instance M_ret {S} : MRet (M S) := λ A a s, (Ok a, s).

#[global] Instance M_bind {S} : MBind (M S) :=
  λ A B k m s, match m s with
               | (Ok a, s') => k a s'
               | (Raise e, s') => (Raise e, s')
               end.

Definition ret {S A} (a : A) : M S A := mret a.

(** [try: m  except Exception: h] *)
Definition try_except {S A} (m : M S A) (h : exn → M S A) : M S A :=
  λ s, match m s with
       | (Ok a, s') => (Ok a, s')
       | (Raise e, s') => h e s'
       end.

(** [try: m  finally: c]: [c] runs on every exit of [m]; the outcome of
    [m] stands unless [c] itself raises. *)
Definition try_finally {S A} (m : M S A) (c : M S unit) : M S A :=
  λ s, let '(r, s1) := m s in
       match c s1 with
       | (Ok _, s2) => (r, s2)
       | (Raise e, s2) => (Raise e, s2)
       end.

(** [try: m  except Exception: pass] *)
Definition best_effort {S} (m : M S unit) : M S unit :=
  try_except m (λ _, ret tt).

(** A function body with local variables [Loc], started at [init]. *)
Definition call {Loc A} (init : Loc) (m : M (world * Loc) A) : M world A :=
  λ w, let '(r, (w', _)) := m (w, init) in (r, w').

Definition io {Loc A} (m : M world A) : M (world * Loc) A :=
  λ '(w, l), let '(r, w') := m w in (r, (w', l)).

Definition get_local {Loc} : M (world * Loc) Loc :=
  λ '(w, l), (Ok l, (w, l)).

Definition set_local {Loc} (l : Loc) : M (world * Loc) unit :=
  λ '(w, _), (Ok tt, (w, l)).

Module IO.

Definition set_pos (n : nat) (f : stream) : stream :=
  {| name := name f; binary := binary f; content := content f; pos := n;
     seekable := seekable f; closed := closed f |}.

Definition with_upload (f : stream) (w : world) : world :=
  {| fs := fs w; upload := f |}.

Definition with_fs (m : gmap nat string) (w : world) : world :=
  {| fs := m; upload := upload w |}.

(** [file_field.read()]: everything from the position to the end. *)
Definition read : M world payload :=
  λ w, let f := upload w in
       if closed f then (Raise ValueError, w)
       else
         let rest := Str.of_chars (drop (pos f) (Str.chars (content f))) in
         (Ok (if binary f then Bytes rest else Text rest),
          with_upload (set_pos (String.length (content f)) f) w).

(** [file_field.seek(n)] *)
Definition seek (n : nat) : M world unit :=
  λ w, let f := upload w in
       if closed f then (Raise ValueError, w)
       else if negb (seekable f) then (Raise OSError, w)
       else (Ok tt, with_upload (set_pos n f) w).

(** [tempfile.NamedTemporaryFile(delete=False, suffix=...)]: a new empty
    file under a path not in use. *)
Definition NamedTemporaryFile : M world nat :=
  λ w, let p := fresh (dom (fs w)) in
       (Ok p, with_fs (<[p := ""]> (fs w)) w).

(** [tmp.write(data)] on the binary temporary file, with the [flush] and
    [close] that follow it. *)
Definition write (p : nat) (data : payload) : M world unit :=
  λ w, match data with
       | Bytes b =>
           (Ok tt, with_fs (<[p := (default "" (fs w !! p) +:+ b)%string]> (fs w)) w)
       | Text _ => (Raise TypeError, w)
       end.

(** [os.unlink(path)] *)
Definition unlink (p : nat) : M world unit :=
  λ w, match fs w !! p with
       | Some _ => (Ok tt, with_fs (delete p (fs w)) w)
       | None => (Raise OSError, w)
       end.

(** A library that opens the file at [path] and parses its bytes. *)
Definition parse_file {A} (parser : string → result A) (path : nat)
  : M world A :=
  λ w, match fs w !! path with
       | Some bytes => (parser bytes, w)
       | None => (Raise OSError, w)
       end.

End IO.

(** [x or ''] *)
Definition or_empty (x : string) : string :=
  if Str.truthy x then x else "".

(** [s.endswith(suf)] *)
Definition endswith (s suf : string) : bool :=
  String.prefix (Str.of_chars (rev (Str.chars suf)))
                (Str.of_chars (rev (Str.chars s))).

(** ** [extract_text_from_docx] *)

(** The argument: a path, or an object with a [read] attribute (the
    upload). *)
Inductive path_or_fileobj : Type :=
  | Path (p : nat)
  | FileObj.

Record docx_locals : Type := {
  tmp_created : bool;
  path : option nat;
}.

Definition extract_text_from_docx (L : libs) (arg : path_or_fileobj)
  : M world string :=
  call {| tmp_created := false; path := None |}
    (try_finally
       ((match arg with
         | FileObj =>
             tmp ← io IO.NamedTemporaryFile;
             data ← io IO.read;
             io (IO.write tmp data) ;;
             set_local {| tmp_created := true; path := Some tmp |}
         | Path p =>
             set_local {| tmp_created := false; path := Some p |}
         end) ;;
        match docx L with
        | None => ret ""
        | Some Document =>
            l ← get_local;
            match path l with
            | Some p =>
                paragraphs ← io (IO.parse_file Document p);
                ret (Str.join nl (filter (λ t, Str.truthy t = true) paragraphs))
            | None => raise TypeError
            end
        end)
       (l ← get_local;
        match tmp_created l, path l with
        | true, Some p => best_effort (io (IO.unlink p))
        | _, _ => ret tt
        end)).

(** ** [extract_text] *)

Definition suffix_of (f : stream) : string :=
  let name := Str.lower (default "" (name f)) in
  if endswith name ".pdf" then ".pdf" else ".docx".

(** The [try] block. The local [tmp_name] is set once the copy is
    written and closed. *)
Definition extract_text_try (L : libs) (suffix : string)
  : M (world * option nat) string :=
  data ← io IO.read;
  tmp ← io IO.NamedTemporaryFile;
  io (IO.write tmp data) ;;
  set_local (Some tmp) ;;
  match String.eqb suffix ".pdf", extract_text_from_pdf L with
  | true, Some pdf =>
      try_except
        (t ← io (IO.parse_file pdf tmp); ret (or_empty t))
        (λ _, ret "")
  | _, _ =>
      t ← io (extract_text_from_docx L (Path tmp));
      ret (or_empty t)
  end.

(** The [finally] block: remove the copy, rewind the upload. *)
Definition extract_text_finally : M (world * option nat) unit :=
  tmp_name ← get_local;
  match tmp_name with
  | Some p => best_effort (io (IO.unlink p))
  | None => ret tt
  end ;;
  best_effort (io (IO.seek 0)).

Definition extract_text (L : libs) : M world string :=
  λ w0,
  let suffix := suffix_of (upload w0) in
  call (None : option nat)
    (try_finally (extract_text_try L suffix) extract_text_finally)
    w0.

(** ** The application boundary in [jobs/views.py] *)

Record job : Type := {
  required_skills : list string;
  description : string;
}.

(** [sorted(set(l))] on strings: the distinct elements in code point
    order. *)
Definition str_le (a b : string) : Prop := String.leb a b = true.

#[global] Instance str_le_dec a b : Decision (str_le a b).
Proof. unfold str_le. apply _. Defined.

Definition sorted_set (l : list string) : list string :=
  merge_sort str_le (elements (list_to_set l : gset string)).

(** The keywords taken from the description when the posting lists no
    skill. *)
Definition fallback_keywords (description : string) : list string :=
  let tokens := Regex.findall (Str.lower description) in
  take 40 (sorted_set (filter (λ t, 2 < String.length t) tokens)).

Definition job_keywords (j : job) : list string :=
  match required_skills j with
  | [] => fallback_keywords (description j)
  | _ :: _ => required_skills j
  end.

(** The [elif uploaded_file:] branch: the text of the upload, [''] when
    the extraction raises, then the rewind. *)
Definition apply_start_resume_text (L : libs) : M world string :=
  resume_text ← try_except (t ← extract_text L; ret (or_empty t))
                           (λ _, ret "");
  best_effort (IO.seek 0) ;;
  ret resume_text.

(** From the upload to the score of the application. *)
Definition apply_start_score (L : libs) (j : job)
  : M world (float * list string * list string) :=
  resume_text ← apply_start_resume_text L;
  ret (compute_ats_score L (job_keywords j) resume_text default_threshold).

(** ** The forms in [jobs/forms.py] *)

(** [s.split(sep)] for a separator of one character: the pieces between
    the separators, empty pieces included. *)
Fixpoint split (sep : ascii) (l : list ascii) : list (list ascii) :=
  match l with
  | [] => [[]]
  | c :: l' =>
      if Ascii.eqb c sep then [] :: split sep l'
      else
        match split sep l' with
        | piece :: pieces => (c :: piece) :: pieces
        | [] => [[c]]
        end
  end.

Definition comma : ascii := ascii_of_nat 44.

Module JobForm.

(** [clean]: the list stored as [required_skills], from the field
    [skills_csv]:
    [[s.strip() for s in skills_csv.split(',') if s.strip()]]. *)
Definition clean (skills_csv : string) : list string :=
  map Str.strip
      (filter (λ s, Str.truthy (Str.strip s) = true)
              (map Str.of_chars (split comma (Str.chars skills_csv)))).

(** [__init__]: what the field [skills_csv] shows for a posting that is
    edited: [', '.join(instance.required_skills)], and nothing when the
    posting has no skill. *)
Definition initial (required_skills : list string) : string :=
  match required_skills with
  | [] => ""
  | _ :: _ => Str.join ", " required_skills
  end.

End JobForm.

(** What a form's cleaning method returns or raises. *)
Inductive validation (A : Type) : Type :=
  | Valid (a : A)
  | ValidationError (msg : string).

Arguments Valid {A} a.
Arguments ValidationError {A} msg.

Module ApplyChooseForm.

(** Truthiness of an uploaded file: [bool(self.name)]. *)
Definition file_truthy (f : stream) : bool :=
  Str.truthy (default "" (name f)).

(** [f.size]: the number of bytes of the upload. *)
Definition size (f : stream) : N := N.of_nat (String.length (content f)).

(** [clean_uploaded_resume] *)
Definition clean_uploaded_resume (f : option stream)
  : validation (option stream) :=
  match f with
  | None => Valid None
  | Some file =>
      if negb (file_truthy file) then Valid f
      else
        let name := Str.lower (default "" (name file)) in
        if negb (endswith name ".pdf" || endswith name ".docx")
        then ValidationError "Only PDF and DOCX files are allowed."
        else if (5 * 1024 * 1024 <? size file)%N
        then ValidationError "File size must be <= 5 MB."
        else Valid f
  end.

End ApplyChooseForm.

(** * Vocabulary of the properties *)

(** ** The tokenizer *)

(** The characters kept by the greedy [+] after [c]: [n] more characters
    of [rest], all of the class, with a [\b] right after them. *)
Definition ends_at (c : ascii) (rest : list ascii) (n : nat) : Prop :=
  (∀ t, t < n → ∃ d, rest !! t = Some d ∧ Char.in_class d = true)
  ∧ Regex.boundary (match n with 0 => Some c | S m => rest !! m end)
                   (rest !! n) = true.

(** [findall_from] with positions: the matches as pairs of the offset of
    the first character and the offset right after the last. *)
Fixpoint spans_from (prev : option ascii) (q skip : nat) (l : list ascii)
  : list (nat * nat) :=
  match l with
  | [] => []
  | c :: rest =>
      match skip with
      | S k => spans_from (Some c) (S q) k rest
      | O =>
          if Regex.boundary prev (Some c) && Char.in_class c then
            match Regex.best c rest with
            | Some n => (q, S (q + n)) :: spans_from (Some c) (S q) n rest
            | None => spans_from (Some c) (S q) 0 rest
            end
          else spans_from (Some c) (S q) 0 rest
      end
  end.

(** The characters of [s] from offset [a] up to offset [b]. *)
Definition sub (s : list ascii) (a b : nat) : list ascii :=
  take (b - a) (drop a s).

Section Spans.

Variable s : list ascii.

Definition before (i : nat) : option ascii :=
  match i with 0 => None | S j => s !! j end.

(** [\b] holds at offset [i]. *)
Definition at_boundary (i : nat) : Prop :=
  Regex.boundary (before i) (s !! i) = true.

(** The character at offset [i] is of the class. *)
Definition class_at (i : nat) : Prop :=
  ∃ c, s !! i = Some c ∧ Char.in_class c = true.

(** A run of characters of the class, from [a] up to [b], bounded by word
    boundaries. *)
Definition bounded_run (a b : nat) : Prop :=
  a < b ∧ (∀ t, a ≤ t < b → class_at t) ∧ at_boundary a ∧ at_boundary b.

(** A maximal such run: no bounded run extends it on either side. *)
Definition token_span (a b : nat) : Prop :=
  bounded_run a b
  ∧ ∀ a' b', a' ≤ a → b ≤ b' → bounded_run a' b' → a' = a ∧ b' = b.

(** What the scan knows at offset [q] with [skip] characters of the last
    match to step over: no bounded run straddles the offset [q + skip],
    and while a match is stepped over, it is a bounded run begun before
    [q]. *)
Definition scan_inv (q skip : nat) : Prop :=
  (∀ a b, a < q + skip → q + skip < b → ¬ bounded_run a b)
  ∧ (0 < skip → ∃ i, i < q ∧ bounded_run i (q + skip)).

End Spans.

Definition in_order (x y : nat * nat) : Prop := x.2 ≤ y.1.

(** ** The matcher and the lists *)

(** [occurs k s]: the text [k] is a contiguous part of [s]. *)
Definition occurs (k s : string) : Prop := ∃ a b, s = a +:+ k +:+ b.

(** The keyword passes the [if not kw: continue] guard. *)
Definition evaluated (kw : string) : Prop := Str.truthy kw = true.

(** The matcher sets the flag for the keyword. *)
Definition hit (L : libs) (thr : float) (toks : list string) (rt : string)
    (kw : string) : Prop :=
  matched_flag L thr (Str.lower (Str.strip kw)) toks rt = true.

#[global] Instance evaluated_dec kw : Decision (evaluated kw).
Proof. unfold evaluated. apply _. Defined.

#[global] Instance hit_dec L thr toks rt kw :
  Decision (hit L thr toks rt kw).
Proof. unfold hit. apply _. Defined.

Definition score_of (r : float * list string * list string) : float := r.1.1.
Definition matched_of (r : float * list string * list string) : list string :=
  r.1.2.
Definition missing_of (r : float * list string * list string) : list string :=
  r.2.

(** No library bound: every optional import failed. *)
Definition no_libs : libs :=
  {| _HAS_RAPIDFUZZ := false; fuzz := None;
     extract_text_from_pdf := None; docx := None |}.

(** The keywords of the list that are not empty after trimming, as the
    list gives them. *)
Definition nonempty_trimmed (K : list string) : list string :=
  filter (λ kw, Str.strip kw ≠ "") K.

(** The partition as the specification words it. The lists hold the
    keywords as given: both are in input order, no keyword is in both,
    every keyword that is not empty after trimming is in one of them,
    their union (as sets) is the set of those keywords, and no empty or
    whitespace keyword is in either. *)
Definition claimed_partition (K matched missing : list string) : Prop :=
  sublist matched K
  ∧ sublist missing K
  ∧ (∀ kw, ¬ (kw ∈ matched ∧ kw ∈ missing))
  ∧ (∀ kw, kw ∈ K → Str.strip kw ≠ "" → kw ∈ matched ∨ kw ∈ missing)
  ∧ (∀ kw, kw ∈ matched ∨ kw ∈ missing ↔ kw ∈ nonempty_trimmed K)
  ∧ (∀ kw, kw ∈ K → Str.strip kw = "" → (kw ∉ matched) ∧ (kw ∉ missing)).

(** ** The score *)

(** The score as the specification words it: the total is the number of
    keywords left after the empty ones are dropped, and 1 when none is
    left. *)
Definition claimed_score (K matched : list string) : float :=
  let kept := filter (λ kw, Str.strip kw ≠ "") K in
  let total := match kept with [] => 1%float | _ :: _ => len kept end in
  round1 (100 * (len matched / total))%float.

(** ** The resume text *)

(** The field [k] of the section [d] of a record, [''] when the section
    or the field is absent. *)
Definition field (d : option (gmap string string)) (k : string) : string :=
  match d with
  | Some m => match m !! k with Some v => v | None => "" end
  | None => ""
  end.

Definition line (e : gmap string string) (k1 k2 k3 k4 : string) : string :=
  field (Some e) k1 +:+ " " +:+ field (Some e) k2 +:+ " " +:+
  field (Some e) k3 +:+ " " +:+ field (Some e) k4.

Definition entries_of (s : option (list (gmap string string)))
  : list (gmap string string) :=
  match s with Some l => l | None => [] end.

(** The parts of the text, before the empty ones are dropped. *)
Definition resume_parts (r : resume_json) : list string :=
  [field (personal r) "full_name"; field (personal r) "headline";
   field (personal r) "location";
   match summary r with Some s => s | None => "" end]
  ++ map (λ e, line e "school" "degree" "details" "duration")
         (entries_of (education r))
  ++ map (λ e, line e "title" "company" "description" "duration")
         (entries_of (experience r))
  ++ map (λ e, line e "title" "tech" "description" "duration")
         (entries_of (projects r))
  ++ [Str.join " " (match skills r with Some l => l | None => [] end);
      match achievements r with Some s => s | None => "" end].

(** ** The extraction *)

(** The non-empty paragraph texts, joined by newlines. *)
Definition paragraphs_text (paragraphs : list string) : string :=
  Str.join nl (filter (λ t, Str.truthy t = true) paragraphs).

(** What [extract_text_from_docx] returns for a path, by the content of
    the file there ([None]: no such file). *)
Definition docx_result (L : libs) (file : option string) : result string :=
  match docx L with
  | None => Ok ""
  | Some Document =>
      match file with
      | Some bytes =>
          match Document bytes with
          | Ok paragraphs => Ok (paragraphs_text paragraphs)
          | Raise e => Raise e
          end
      | None => Raise OSError
      end
  end.

(** The bytes [read()] returns: the content from the position on. *)
Definition remaining (f : stream) : string :=
  Str.of_chars (drop (pos f) (Str.chars (content f))).

(** The outcome of the extraction once the upload is copied to the
    temporary file: the PDF extractor's failures are replaced by [''],
    those of the DOCX path are not. *)
Definition extract_result (L : libs) (suffix bytes : string) : result string :=
  match String.eqb suffix ".pdf", extract_text_from_pdf L with
  | true, Some pdf =>
      match pdf bytes with Ok t => Ok t | Raise _ => Ok "" end
  | _, _ => docx_result L (Some bytes)
  end.

(** The upload after the rewind that [seek(0)] attempts. *)
Definition rewound (f : stream) : stream :=
  if closed f then f
  else if seekable f then IO.set_pos 0 f
  else f.

(** A python-docx that rejects every file not starting with the ZIP
    signature, and otherwise reports two paragraphs around an empty one. *)
Definition sample_docx (bytes : string) : result (list string) :=
  if String.prefix "PK" bytes then Ok ["Skills"; ""; "Python"]
  else Raise PackageNotFoundError.

Definition docx_only : libs :=
  {| _HAS_RAPIDFUZZ := false; fuzz := None;
     extract_text_from_pdf := None; docx := Some sample_docx |}.

Definition sample_upload (filename bytes : string) : stream :=
  {| name := Some filename; binary := true; content := bytes; pos := 0;
     seekable := true; closed := false |}.

Definition sample_world (filename bytes : string) : world :=
  {| fs := ∅; upload := sample_upload filename bytes |}.

(** The frame the specification words for [extract_text]: the files are
    those before the call and the upload is back at its start. *)
Definition claimed_frame (w w' : world) : Prop :=
  fs w' = fs w ∧ upload w' = IO.set_pos 0 (upload w).

(** The fuzzy tier accepts [k] against [rt]. *)
Definition fuzzy_accepts (L : libs) (thr : float) (k rt : string) : Prop :=
  _HAS_RAPIDFUZZ L = true
  ∧ ∃ partial_ratio score,
      fuzz L = Some partial_ratio ∧ partial_ratio k rt = Ok score
      ∧ PrimFloat.leb thr score = true.

(** A pdfminer that rejects every file not starting with the PDF
    signature. *)
Definition sample_pdf (bytes : string) : result string :=
  if String.prefix "%PDF" bytes then Ok "Python developer"
  else Raise (LibraryError "PDFSyntaxError").

Definition pdf_only : libs :=
  {| _HAS_RAPIDFUZZ := false; fuzz := None;
     extract_text_from_pdf := Some sample_pdf; docx := None |}.

(** A text-mode stream: [read()] returns a [str]. *)
Definition text_upload (filename text : string) : stream :=
  {| name := Some filename; binary := false; content := text; pos := 0;
     seekable := true; closed := false |}.

(** ** The forms *)

(** The first character is not whitespace: nothing for [lstrip] to
    remove. *)
Definition starts_clean (l : list ascii) : Prop :=
  match l with [] => True | c :: _ => Char.isspace c = false end.

(** A skill as [JobForm.clean] stores it: not empty, trimmed, without a
    comma. *)
Definition skill_ok (s : string) : Prop :=
  s ≠ "" ∧ Str.strip s = s ∧ Forall (λ c, c ≠ comma) (Str.chars s).

(** A character that is neither of the class nor a word character, as
    the space and the newline. *)
Definition separator (c : ascii) : Prop :=
  Char.in_class c = false ∧ Char.is_word c = false.

(** A record with two skills and nothing else. *)
Definition sample_resume : resume_json :=
  {| personal := None; summary := None; education := None;
     experience := None; projects := None;
     skills := Some ["Python 3"; "SQL"]; achievements := None |}.

(** A text without underscore and without letters or digits outside
    ASCII: every word character is of the class. *)
Definition plain (s : list ascii) : Prop :=
  Forall (λ c, Char.is_word c = true → Char.in_class c = true) s.

(** * Properties *)

(** ** Strings and lists *)

Lemma mem_spec (k : string) (l : list string) :
  Str.mem k l = true ↔ k ∈ l.
Proof.
  unfold Str.mem. rewrite existsb_exists. split.
  - intros (x & Hx & E). apply String.eqb_eq in E. subst.
    by apply list_elem_of_In.
  - intros H. exists k. split; [by apply list_elem_of_In | apply String.eqb_refl].
Qed.

Lemma prefix_spec (k s : string) :
  String.prefix k s = true ↔ ∃ b, s = k +:+ b.
Proof.
  revert s. induction k as [|c k IH]; intros s; simpl.
  - split; [intros _; by exists s | by destruct s].
  - destruct s as [|d s].
    + split; [done | intros (b & Hb); discriminate].
    + simpl. destruct (Ascii.ascii_dec c d) as [->|Hne].
      * rewrite IH. split; intros (b & Hb); exists b.
        -- by rewrite Hb.
        -- by injection Hb.
      * split; [done | intros (b & Hb); by injection Hb].
Qed.

Lemma contains_spec (k s : string) : Str.contains k s = true ↔ occurs k s.
Proof.
  induction s as [|d s IH].
  - cbn [Str.contains]. rewrite orb_false_r, prefix_spec. split.
    + intros (b & Hb). by exists "", b.
    + intros (a & b & Hab). destruct a; [by exists b | discriminate].
  - cbn [Str.contains]. rewrite orb_true_iff, prefix_spec, IH. split.
    + intros [(b & Hb) | (a & b & Hab)].
      * by exists "", b.
      * exists (String d a), b. by rewrite Hab.
    + intros (a & b & Hab). destruct a as [|d' a].
      * left. by exists b.
      * right. exists a, b. by injection Hab.
Qed.

Lemma contains_empty (s : string) : Str.contains "" s = true.
Proof. apply contains_spec. by exists "", s. Qed.

Lemma chars_lower (text : string) :
  Str.chars (Str.lower text) = map Char.lower (Str.chars text).
Proof.
  unfold Str.lower, Str.chars, Str.of_chars.
  apply list_ascii_of_string_of_list_ascii.
Qed.

(** ** The tokenizer *)

Lemma ends_at_cons c d rest m :
  ends_at c (d :: rest) (S m) ↔ Char.in_class d = true ∧ ends_at d rest m.
Proof.
  unfold ends_at. split.
  - intros [Hall Hb]. split; [|split].
    + destruct (Hall 0) as (d' & Hd & Hc); [lia|]. by injection Hd as <-.
    + intros t Ht. apply (Hall (S t)). lia.
    + by destruct m.
  - intros (Hd & Hall & Hb). split.
    + intros [|t] Ht; [by exists d|]. apply Hall. lia.
    + by destruct m.
Qed.

Lemma ends_at_zero c rest :
  ends_at c rest 0 ↔ Regex.boundary (Some c) (head rest) = true.
Proof.
  unfold ends_at. rewrite <- head_lookup. split; [by intros [_ ?]|].
  intros H. split; [intros t Ht; lia | done].
Qed.

(** [best] returns the longest admissible end, and [None] when there is
    none. *)
Lemma best_spec (c : ascii) (rest : list ascii) :
  match Regex.best c rest with
  | Some n => ends_at c rest n ∧ ∀ m, ends_at c rest m → m ≤ n
  | None => ∀ m, ¬ ends_at c rest m
  end.
Proof.
  revert c. induction rest as [|d rest IH]; intros c.
  - cbn [Regex.best head].
    assert (Hpos : ∀ m, ends_at c [] (S m) → False).
    { intros m [Hall _]. destruct (Hall 0) as (? & ? & _); [lia | done]. }
    destruct (Regex.boundary (Some c) None) eqn:Hb.
    + split; [by apply ends_at_zero|].
      intros [|m] Hm; [lia | by apply Hpos in Hm].
    + intros [|m] Hm; [|by apply Hpos in Hm].
      apply ends_at_zero in Hm. cbn in Hm. congruence.
  - cbn [Regex.best head].
    assert (Hhere :
      match (if Regex.boundary (Some c) (Some d) then Some 0 else None) with
      | Some n => ends_at c (d :: rest) n
                  ∧ ∀ m, ends_at c (d :: rest) m →
                         (∀ k, ¬ ends_at d rest k) ∨ Char.in_class d = false →
                         m ≤ n
      | None => ∀ m, ends_at c (d :: rest) m →
                     (∀ k, ¬ ends_at d rest k) ∨ Char.in_class d = false →
                     False
      end).
    { destruct (Regex.boundary (Some c) (Some d)) eqn:Hb.
      - split; [by apply ends_at_zero|].
        intros [|m] Hm Hno; [lia|]. apply ends_at_cons in Hm as [Hd Hm].
        destruct Hno as [Hno|Hno]; [by apply Hno in Hm | congruence].
      - intros [|m] Hm Hno.
        + apply ends_at_zero in Hm. cbn in Hm. congruence.
        + apply ends_at_cons in Hm as [Hd Hm].
          destruct Hno as [Hno|Hno]; [by apply Hno in Hm | congruence]. }
    destruct (Char.in_class d) eqn:Hd.
    + specialize (IH d). destruct (Regex.best d rest) as [n|].
      * destruct IH as [Hn Hmax]. split; [by apply ends_at_cons|].
        intros [|m] Hm; [lia|]. apply ends_at_cons in Hm as [_ Hm].
        apply Hmax in Hm. lia.
      * destruct (if Regex.boundary (Some c) (Some d) then Some 0 else None).
        -- destruct Hhere as [H0 Hmax]. split; [done|]. intros m Hm.
           apply Hmax; auto.
        -- intros m Hm. eapply Hhere; eauto.
    + destruct (if Regex.boundary (Some c) (Some d) then Some 0 else None).
      * destruct Hhere as [H0 Hmax]. split; [done|]. intros m Hm.
        apply Hmax; auto.
      * intros m Hm. eapply Hhere; eauto.
Qed.

Lemma findall_from_spans (l pre : list ascii) (skip : nat) :
  Regex.findall_from (last pre) skip l =
  map (λ ab, sub (pre ++ l) ab.1 ab.2)
      (spans_from (last pre) (length pre) skip l).
Proof.
  revert pre skip. induction l as [|c rest IH]; intros pre skip; [done|].
  assert (Hnext : ∀ k,
    Regex.findall_from (Some c) k rest =
    map (λ ab, sub (pre ++ c :: rest) ab.1 ab.2)
        (spans_from (Some c) (S (length pre)) k rest)).
  { intros k. specialize (IH (pre ++ [c]) k).
    rewrite last_snoc, length_app, <- app_assoc in IH. cbn in IH.
    by rewrite Nat.add_1_r in IH. }
  cbn [Regex.findall_from spans_from]. destruct skip as [|k]; [|apply Hnext].
  destruct (Regex.boundary (last pre) (Some c) && Char.in_class c);
    [|apply Hnext].
  destruct (Regex.best c rest) as [n|]; [|apply Hnext].
  cbn [map fst snd]. rewrite Hnext. f_equal.
  unfold sub. rewrite drop_app_length.
  by replace (S (length pre + n) - length pre) with (S n) by lia.
Qed.

Lemma bounded_run_join (s : list ascii) (i a e b : nat) :
  bounded_run s i e → bounded_run s a b → i ≤ a → a ≤ e → e ≤ b →
  bounded_run s i b.
Proof.
  intros (Hie & Hc1 & Hbi & _) (Hab & Hc2 & _ & Hbb) Hia Hae Heb.
  split; [lia|]. split; [|done].
  intros t Ht. destruct (decide (t < e)); [apply Hc1 | apply Hc2]; lia.
Qed.

(** The offsets of [s = pre ++ c :: rest] around [length pre]. *)
Section Position.

Variables (pre rest : list ascii) (c : ascii).

Let s := pre ++ c :: rest.
Let q := length pre.

Lemma before_here : before s q = last pre.
Proof.
  subst s q. unfold before. rewrite last_lookup.
  destruct (length pre) as [|j] eqn:E; cbn.
  - by destruct pre.
  - rewrite lookup_app_l by lia. done.
Qed.

Lemma lookup_here : s !! q = Some c.
Proof. subst s q. by rewrite list_lookup_middle. Qed.

Lemma lookup_after (t : nat) : s !! S (q + t) = rest !! t.
Proof.
  subst s q. rewrite lookup_app_r by lia.
  by replace (S (length pre + t) - length pre) with (S t) by lia.
Qed.

Lemma before_after (n : nat) :
  before s (S (q + n)) = match n with 0 => Some c | S m => rest !! m end.
Proof.
  cbn [before]. destruct n as [|m].
  - rewrite Nat.add_0_r. apply lookup_here.
  - rewrite Nat.add_succ_r. apply lookup_after.
Qed.

(** A bounded run from [q] on is what [ends_at] describes. *)
Lemma bounded_run_here (b : nat) :
  bounded_run s q b ↔
  Regex.boundary (last pre) (Some c) = true ∧ Char.in_class c = true
  ∧ ∃ n, b = S (q + n) ∧ ends_at c rest n.
Proof.
  unfold bounded_run, at_boundary, class_at, ends_at. split.
  - intros (Hlt & Hall & Hbq & Hbb).
    rewrite before_here, lookup_here in Hbq.
    destruct (Hall q) as (c' & Hc' & Hin); [lia|].
    rewrite lookup_here in Hc'. injection Hc' as <-.
    repeat split; try done.
    exists (b - S q). assert (Hb : b = S (q + (b - S q))) by lia.
    split; [done|]. rewrite Hb in Hbb.
    rewrite before_after, lookup_after in Hbb. split; [|done].
    intros t Ht. destruct (Hall (S (q + t))) as (d & Hd & Hdin); [lia|].
    rewrite lookup_after in Hd. eauto.
  - intros (Hbq & Hin & n & -> & Hall & Hbb). repeat split.
    + lia.
    + intros t Ht. destruct (decide (t = q)) as [->|Hne].
      * exists c. by rewrite lookup_here.
      * destruct (Hall (t - S q)) as (d & Hd & Hdin); [lia|].
        exists d. split; [|done].
        replace t with (S (q + (t - S q))) by lia. by rewrite lookup_after.
    + by rewrite before_here, lookup_here.
    + by rewrite before_after, lookup_after.
Qed.

End Position.

(** The scan finds the token spans from [length pre] on, each once, in
    order. *)
Lemma spans_from_spec (l pre : list ascii) (skip : nat) :
  scan_inv (pre ++ l) (length pre) skip →
  (∀ a b, (a, b) ∈ spans_from (last pre) (length pre) skip l ↔
          token_span (pre ++ l) a b ∧ length pre ≤ a)
  ∧ (∀ a b, (a, b) ∈ spans_from (last pre) (length pre) skip l →
            length pre + skip ≤ a)
  ∧ StronglySorted in_order (spans_from (last pre) (length pre) skip l).
Proof.
  revert pre skip. induction l as [|c rest IH]; intros pre skip Hinv.
  { cbn. split; [|split].
    - intros a b. split; [intros H; by apply not_elem_of_nil in H|].
      intros [[(Hlt & Hall & _) _] Hq].
      destruct (Hall a) as (d & Hd & _); [lia|].
      apply lookup_lt_Some in Hd. rewrite app_nil_r in Hd. lia.
    - intros a b H. by apply not_elem_of_nil in H.
    - constructor. }
  set (s := pre ++ c :: rest) in *. set (q := length pre) in *.
  assert (Hnext : ∀ k,
    scan_inv s (S q) k →
    (∀ a b, (a, b) ∈ spans_from (Some c) (S q) k rest ↔
            token_span s a b ∧ S q ≤ a)
    ∧ (∀ a b, (a, b) ∈ spans_from (Some c) (S q) k rest → S q + k ≤ a)
    ∧ StronglySorted in_order (spans_from (Some c) (S q) k rest)).
  { intros k Hk. specialize (IH (pre ++ [c]) k).
    rewrite last_snoc, length_app, <- app_assoc in IH. cbn in IH.
    rewrite Nat.add_1_r in IH. by apply IH. }
  assert (Hrun := bounded_run_here pre rest c). fold s q in Hrun.
  destruct Hinv as [Hstr Hin].
  cbn [spans_from]. destruct skip as [|k].
  - (* the scan is between matches *)
    rewrite Nat.add_0_r in Hstr.
    assert (Hskip : (∀ b, ¬ bounded_run s q b) →
      (∀ a b, (a, b) ∈ spans_from (Some c) (S q) 0 rest ↔
              token_span s a b ∧ q ≤ a)
      ∧ (∀ a b, (a, b) ∈ spans_from (Some c) (S q) 0 rest → q + 0 ≤ a)
      ∧ StronglySorted in_order (spans_from (Some c) (S q) 0 rest)).
    { intros Hno. destruct (Hnext 0) as (Hiff & Hlow & Hsort).
      - split; [|lia]. rewrite Nat.add_0_r. intros a b Ha Hb.
        destruct (decide (a = q)) as [->|Hne]; [apply Hno|].
        apply Hstr; lia.
      - split; [|split]; [|intros a b Hab; apply Hlow in Hab; lia|done].
        intros a b. rewrite Hiff. split; [intros [? ?]; split; [done|lia]|].
        intros [Hts Hqa]. split; [done|].
        destruct (decide (a = q)) as [->|Hne]; [|lia].
        destruct Hts as [Hr _]. by apply Hno in Hr. }
    destruct (Regex.boundary (last pre) (Some c) && Char.in_class c) eqn:Hcond.
    2: { apply Hskip. intros b Hb. apply Hrun in Hb as (Hb1 & Hb2 & _).
         rewrite Hb1, Hb2 in Hcond. done. }
    apply andb_true_iff in Hcond as [Hb1 Hb2].
    pose proof (best_spec c rest) as Hbest.
    destruct (Regex.best c rest) as [n|].
    2: { apply Hskip. intros b Hb. apply Hrun in Hb as (_ & _ & m & _ & Hm).
         by apply Hbest in Hm. }
    destruct Hbest as [Hn Hmax].
    set (e := S (q + n)).
    assert (Hqe : bounded_run s q e).
    { apply Hrun. split; [done|]. split; [done|]. by exists n. }
    assert (Hright : ∀ b, bounded_run s q b → b ≤ e).
    { intros b Hb. apply Hrun in Hb as (_ & _ & m & -> & Hm).
      apply Hmax in Hm. subst e. lia. }
    assert (Hlt : q < e) by (subst e; lia).
    destruct (Hnext n) as (Hiff & Hlow & Hsort).
    { split.
      - replace (S q + n) with e by (subst e; lia). intros a b Ha Hb Hab.
        destruct (decide (a < q)); [apply (Hstr a b); by try lia|].
        assert (Hqb : bounded_run s q b).
        { eapply (bounded_run_join s q a e b); eauto; lia. }
        apply Hright in Hqb. lia.
      - intros _. exists q. split; [lia|].
        by replace (S q + n) with e by (subst e; lia). }
    assert (Hts : token_span s q e).
    { split; [done|]. intros a' b' Ha' Hb' Hr'.
      destruct (decide (a' = q)) as [->|Hne].
      - apply Hright in Hr'. lia.
      - exfalso. apply (Hstr a' b'); [lia | lia | done]. }
    split; [|split].
    + intros a b. rewrite elem_of_cons, Hiff. split.
      * intros [H|[? ?]]; [injection H as -> ->|]; (split; [done|lia]).
      * intros [Hab Hqa]. destruct (decide (a = q)) as [->|Hne].
        -- left. f_equal. destruct Hab as [Hr Hmx].
           pose proof (Hright _ Hr).
           destruct (Hmx q e) as [_ ?]; [lia | lia | done | done].
        -- right. split; [done | lia].
    + intros a b Hab. apply elem_of_cons in Hab as [H|H];
        [injection H as -> ->; lia|].
      apply Hlow in H. lia.
    + constructor; [done|]. apply Forall_forall. intros [a b] Hab.
      apply Hlow in Hab. unfold in_order. cbn. subst e. lia.
  - (* the scan steps over a match *)
    destruct Hin as (i & Hi & Hie); [lia|].
    destruct (Hnext k) as (Hiff & Hlow & Hsort).
    { split.
      - replace (S q + k) with (q + S k) by lia. done.
      - intros _. exists i. split; [lia|].
        by replace (S q + k) with (q + S k) by lia. }
    split; [|split]; [|intros a b Hab; apply Hlow in Hab; lia|done].
    intros a b. rewrite Hiff. split; [intros [? ?]; split; [done|lia]|].
    intros [Hts Hqa]. split; [done|].
    destruct (decide (a = q)) as [->|Hne]; [exfalso|lia].
    destruct Hts as [Hr Hmx].
    destruct (decide (b ≤ q + S k)).
    + destruct (Hmx i (q + S k)) as [? _]; [lia | lia | done | lia].
    + apply (Hstr q b); [lia | lia | done].
Qed.

Lemma findall_lower_normalize (d : string) :
  Regex.findall (Str.lower d) = normalize_tokens d.
Proof. by destruct d. Qed.

(** C5: the tokenizer lower-cases the text and returns, in order of
    position, the maximal runs of characters of the class
    {letters, digits, +, #, ., -} that are bounded by word boundaries:
    each token is the text between two offsets [a < b] with a word
    boundary at both, only characters of the class in between, and no
    larger such run around it; every such run is returned, once, and the
    tokens do not overlap. The empty text has no token, and
    "Python, SQL!! Django-2.0" gives "python", "sql", "django-2.0". *)
Theorem normalize_tokens_spec (text : string) :
  let s := map Char.lower (Str.chars text) in
  (∃ spans : list (nat * nat),
     normalize_tokens text = map (λ ab, Str.of_chars (sub s ab.1 ab.2)) spans
     ∧ (∀ a b, (a, b) ∈ spans ↔ token_span s a b)
     ∧ StronglySorted in_order spans)
  ∧ normalize_tokens "" = []
  ∧ normalize_tokens "Python, SQL!! Django-2.0"
    = ["python"; "sql"; "django-2.0"].
Proof.
  intros s. split; [|split; reflexivity].
  exists (spans_from None 0 0 s).
  destruct (spans_from_spec s [] 0) as (Hiff & _ & Hsort).
  { split; cbn; [intros a b Ha; lia | lia]. }
  cbn [app length last] in Hiff, Hsort. split; [|split; [|done]].
  - rewrite <- findall_lower_normalize. unfold Regex.findall.
    rewrite chars_lower. fold s.
    pose proof (findall_from_spans s [] 0) as Hf.
    cbn [app length last] in Hf. rewrite Hf.
    by rewrite map_map.
  - intros a b. rewrite Hiff. split; [by intros [? _] | split; [done|lia]].
Qed.


(** ** The loop of [compute_ats_score] *)

Section Loop.

Variables (L : libs) (thr : float) (toks : list string) (rt : string).

Lemma score_loop (K m s : list string) :
  fold_left (score_step L thr toks rt) K (m, s) =
  (m ++ filter (λ kw, evaluated kw ∧ hit L thr toks rt kw) K,
   s ++ filter (λ kw, evaluated kw ∧ ¬ hit L thr toks rt kw) K).
Proof.
  revert m s. induction K as [|kw K IH]; intros m s.
  - by rewrite !app_nil_r.
  - cbn [fold_left score_step].
    destruct (Str.truthy kw) eqn:Et; cbn [negb];
      [destruct (matched_flag L thr (Str.lower (Str.strip kw)) toks rt) eqn:Ef|];
      rewrite IH, !filter_cons.
    + rewrite decide_True by (by split).
      rewrite decide_False by (intros [_ H]; by apply H).
      by rewrite <- app_assoc.
    + rewrite decide_False by (unfold hit; intros [_ H]; congruence).
      rewrite decide_True by (unfold hit; split; [done | congruence]).
      by rewrite <- app_assoc.
    + rewrite decide_False by (unfold evaluated; intros [H _]; congruence).
      by rewrite decide_False by (unfold evaluated; intros [H _]; congruence).
Qed.

End Loop.

(** The two lists [compute_ats_score] returns. *)
Lemma compute_ats_score_lists L K T thr :
  let toks := normalize_tokens T in
  let rt := Str.join " " toks in
  ∃ score,
    compute_ats_score L K T thr =
    (score,
     filter (λ kw, evaluated kw ∧ hit L thr toks rt kw) K,
     filter (λ kw, evaluated kw ∧ ¬ hit L thr toks rt kw) K).
Proof.
  intros toks rt. unfold compute_ats_score. fold toks. fold rt.
  rewrite score_loop. cbn [app]. eauto.
Qed.

Lemma matched_of_spec L K T thr :
  matched_of (compute_ats_score L K T thr) =
  filter (λ kw, evaluated kw ∧
                hit L thr (normalize_tokens T)
                    (Str.join " " (normalize_tokens T)) kw) K.
Proof. destruct (compute_ats_score_lists L K T thr) as [s ->]. done. Qed.

Lemma missing_of_spec L K T thr :
  missing_of (compute_ats_score L K T thr) =
  filter (λ kw, evaluated kw ∧
                ¬ hit L thr (normalize_tokens T)
                      (Str.join " " (normalize_tokens T)) kw) K.
Proof. destruct (compute_ats_score_lists L K T thr) as [s ->]. done. Qed.

Lemma evaluated_iff (kw : string) : evaluated kw ↔ kw ≠ "".
Proof. unfold evaluated. destruct kw; simpl; split; congruence. Qed.

Lemma hit_iff L thr toks rt kw :
  hit L thr toks rt kw ↔
  is_Some (match_tier L thr (Str.lower (Str.strip kw)) toks rt).
Proof.
  unfold hit, matched_flag.
  destruct (match_tier _ _ _ _ _); split; intros H; done.
Qed.

(** ** The matcher's tiers *)

Lemma match_tier_exact L thr k toks rt :
  match_tier L thr k toks rt = Some Exact ↔ k ∈ toks.
Proof.
  rewrite <- mem_spec. unfold match_tier.
  destruct (Str.mem k toks); [done|].
  split; [|done].
  destruct (Str.contains k rt); [done|].
  destruct (_HAS_RAPIDFUZZ L), (fuzz L) as [pr|]; try done.
  destruct (pr k rt) as [score|]; [|done].
  by destruct (PrimFloat.leb thr score).
Qed.

Lemma match_tier_substring L thr k toks rt :
  match_tier L thr k toks rt = Some Substring ↔ (k ∉ toks) ∧ occurs k rt.
Proof.
  rewrite <- mem_spec, <- contains_spec. unfold match_tier.
  destruct (Str.mem k toks).
  - split; [done | by intros [H _]].
  - destruct (Str.contains k rt).
    + split; [by split; [congruence|] | done].
    + split; [|by intros [_ H]].
      destruct (_HAS_RAPIDFUZZ L), (fuzz L) as [pr|]; try done.
      destruct (pr k rt) as [score|]; [|done].
      by destruct (PrimFloat.leb thr score).
Qed.

Lemma match_tier_fuzzy L thr k toks rt :
  match_tier L thr k toks rt = Some Fuzzy ↔
  (k ∉ toks) ∧ ¬ occurs k rt ∧ _HAS_RAPIDFUZZ L = true ∧
  ∃ partial_ratio score,
    fuzz L = Some partial_ratio ∧ partial_ratio k rt = Ok score ∧
    PrimFloat.leb thr score = true.
Proof.
  rewrite <- mem_spec, <- contains_spec. unfold match_tier.
  destruct (Str.mem k toks); [split; [done | by intros [H _]]|].
  destruct (Str.contains k rt); [split; [done | by intros (_ & H & _)]|].
  destruct (_HAS_RAPIDFUZZ L);
    [|split; [done | by intros (_ & _ & H & _)]].
  destruct (fuzz L) as [pr|];
    [|split; [done | by intros (_ & _ & _ & ? & ? & H & _)]].
  destruct (pr k rt) as [score|e] eqn:Epr.
  - destruct (PrimFloat.leb thr score) eqn:Ele.
    + split; [|done]. intros _. repeat split; try congruence.
      exists pr, score. by repeat split.
    + split; [done|]. intros (_ & _ & _ & pr' & s' & Hpr & Hs & Hle).
      injection Hpr as <-. rewrite Epr in Hs. injection Hs as <-.
      congruence.
  - split; [done|]. intros (_ & _ & _ & pr' & s' & Hpr & Hs & _).
    injection Hpr as <-. congruence.
Qed.

(** C3: the matcher decides by the first tier that succeeds, in the order
    exact token, substring of the joined tokens, fuzzy partial ratio at
    least the threshold; the fuzzy tier never matches when no fuzzy
    matcher is bound. A keyword is listed as matched exactly when some
    tier succeeds on its trimmed, lower-cased form. With any libraries,
    so also without a fuzzy matcher, the keyword "sql" is matched by the
    exact tier against a text with the token "sql", and "java" is matched
    by the substring tier against a text whose only such token is
    "javascript". *)
Theorem matcher_tier_order (L : libs) (thr : float) :
  (∀ k toks rt,
     (match_tier L thr k toks rt = Some Exact ↔ k ∈ toks)
     ∧ (match_tier L thr k toks rt = Some Substring ↔
        (k ∉ toks) ∧ occurs k rt)
     ∧ (match_tier L thr k toks rt = Some Fuzzy ↔
        (k ∉ toks) ∧ ¬ occurs k rt ∧ _HAS_RAPIDFUZZ L = true ∧
        ∃ partial_ratio score,
          fuzz L = Some partial_ratio ∧ partial_ratio k rt = Ok score ∧
          PrimFloat.leb thr score = true))
  ∧ (∀ k toks rt,
       _HAS_RAPIDFUZZ L = false ∨ fuzz L = None →
       match_tier L thr k toks rt ≠ Some Fuzzy)
  ∧ (∀ K T kw,
       kw ∈ K → kw ≠ "" →
       let toks := normalize_tokens T in
       let tier := match_tier L thr (Str.lower (Str.strip kw)) toks
                              (Str.join " " toks) in
       (kw ∈ matched_of (compute_ats_score L K T thr) ↔ is_Some tier)
       ∧ (kw ∈ missing_of (compute_ats_score L K T thr) ↔ tier = None))
  ∧ (let toks := normalize_tokens "Python, SQL!! Django-2.0" in
     match_tier L thr (Str.lower (Str.strip "sql")) toks (Str.join " " toks)
     = Some Exact
     ∧ matched_of (compute_ats_score L ["sql"] "Python, SQL!! Django-2.0" thr)
       = ["sql"])
  ∧ (let toks := normalize_tokens "I write JavaScript daily" in
     match_tier L thr (Str.lower (Str.strip "java")) toks (Str.join " " toks)
     = Some Substring
     ∧ matched_of (compute_ats_score L ["java"] "I write JavaScript daily" thr)
       = ["java"]).
Proof.
  split; [|split; [|split; [|split]]].
  - intros k toks rt.
    auto using match_tier_exact, match_tier_substring, match_tier_fuzzy.
  - intros k toks rt Hno Hf. apply match_tier_fuzzy in Hf.
    destruct Hf as (_ & _ & Hhas & pr & s & Hpr & _).
    destruct Hno; congruence.
  - intros K T kw HK Hkw toks tier.
    rewrite matched_of_spec, missing_of_spec, !list_elem_of_filter.
    fold toks. rewrite hit_iff. fold tier. rewrite evaluated_iff.
    rewrite <- not_eq_None_Some. split; split.
    + by intros [[_ H] _].
    + by intros H.
    + intros [[_ H] _]. by destruct (decide (tier = None)).
    + intros ->. repeat split; try done. by intros H.
  - split; reflexivity.
  - split; reflexivity.
Qed.

(** ** The matched and missing lists *)

(** C1: the lists are the partition of the keyword list exactly when no
    keyword is made of whitespace only. A keyword that is not empty and is
    empty after trimming passes the [if not kw] guard and is listed, as
    the input gives it, where the partition has it in neither list: with
    the keywords "Python" and " " and the resume "Python developer" the
    code returns both as matched, and the partition is "Python" matched
    and nothing missing. *)
Theorem whitespace_keyword_breaks_partition (L : libs) (thr : float) :
  (∀ K T,
     let r := compute_ats_score L K T thr in
     claimed_partition K (matched_of r) (missing_of r)
     ↔ ∀ kw, kw ∈ K → kw ≠ "" → Str.strip kw ≠ "")
  ∧ (let K := ["Python"; " "] in
     let r := compute_ats_score L K "Python developer" thr in
     matched_of r = ["Python"; " "]
     ∧ missing_of r = []
     ∧ claimed_partition K ["Python"] []
     ∧ ¬ claimed_partition K (matched_of r) (missing_of r)).
Proof.
  split.
  - intros K T r. subst r. rewrite matched_of_spec, missing_of_spec.
    set (h := hit L thr _ _). unfold claimed_partition, nonempty_trimmed.
    split.
    + intros (_ & _ & _ & _ & _ & Hws) kw HK Hne Hs.
      destruct (Hws kw HK Hs) as [Hm Hx].
      rewrite list_elem_of_filter in Hm, Hx.
      apply evaluated_iff in Hne.
      destruct (decide (h kw)); tauto.
    + intros Hno.
      assert (Hev : ∀ kw, kw ∈ K → (evaluated kw ↔ Str.strip kw ≠ "")).
      { intros kw HK. rewrite evaluated_iff. split.
        - by apply Hno.
        - intros Hs ->. by apply Hs. }
      split; [apply sublist_filter|].
      split; [apply sublist_filter|].
      split; [intros kw; rewrite !list_elem_of_filter; tauto|].
      split.
      { intros kw HK Hs. rewrite !list_elem_of_filter.
        apply (Hev kw HK) in Hs. destruct (decide (h kw)); tauto. }
      split.
      { intros kw. rewrite !list_elem_of_filter. split.
        - intros [[[He _] HK]|[[He _] HK]]; split; try done;
            by apply (Hev kw HK).
        - intros [Hs HK]. apply (Hev kw HK) in Hs.
          destruct (decide (h kw)); tauto. }
      intros kw HK Hs. rewrite !list_elem_of_filter.
      split; intros [[He _] _]; by apply (Hev kw HK) in He.
  - assert (Hin : " " ∈ ["Python"; " "]).
    { apply list_elem_of_further, list_elem_of_here. }
    split; [reflexivity|]. split; [reflexivity|]. split.
    + unfold claimed_partition, nonempty_trimmed.
      change (filter _ ["Python"; " "]) with ["Python"].
      split; [apply sublist_skip, sublist_nil_l|].
      split; [apply sublist_nil_l|].
      split; [intros kw [_ H]; by apply not_elem_of_nil in H|].
      split.
      { intros kw HK Hs. left.
        apply elem_of_cons in HK as [->|HK]; [apply list_elem_of_here|].
        apply list_elem_of_singleton in HK as ->. by destruct Hs. }
      split.
      { intros kw. split; [intros [H|H]; [done|by apply not_elem_of_nil in H]|].
        by left. }
      intros kw HK Hs. split; [|apply not_elem_of_nil].
      intros H. apply list_elem_of_singleton in H as ->. discriminate Hs.
    + intros (_ & _ & _ & _ & _ & Hws).
      destruct (Hws " " Hin eq_refl) as [Hm _]. apply Hm.
      change (" " ∈ ["Python"; " "]). exact Hin.
Qed.

(** C4: a keyword of one space passes the [if not kw] guard, is trimmed to
    the empty string, and the substring tier finds the empty string in any
    joined text: the keyword is listed as matched, whatever the resume. *)
Theorem whitespace_keyword_is_matched (L : libs) (T : string) (thr : float) :
  let r := compute_ats_score L [" "] T thr in
  matched_of r = [" "] ∧ missing_of r = [] ∧ score_of r = 100%float.
Proof.
  intros r. subst r. unfold compute_ats_score.
  cbn [fold_left score_step Str.truthy negb].
  change (Str.lower (Str.strip " ")) with "".
  assert (matched_flag L thr "" (normalize_tokens T)
            (Str.join " " (normalize_tokens T)) = true) as ->.
  { unfold matched_flag, match_tier.
    destruct (Str.mem _ _); [done|]. by rewrite contains_empty. }
  done.
Qed.

(** ** The score *)

(** C2: the total is the length of the keyword list as given; an empty
    keyword is skipped by the loop and still counted. With the keywords
    "" and "python" and the resume "python" the one evaluated keyword is
    matched and the score is 50, where the stated formula gives 100. *)
Theorem score_counts_skipped_keywords (L : libs) (thr : float) :
  let r := compute_ats_score L [""; "python"] "python" thr in
  matched_of r = ["python"] ∧ missing_of r = []
  ∧ score_of r = 50%float
  ∧ claimed_score [""; "python"] (matched_of r) = 100%float.
Proof. repeat split. Qed.

(** ** [resume_json_to_text] *)

Lemma append_each_map keys entries parts :
  append_each keys entries parts = parts ++ map (join_fields keys) entries.
Proof.
  unfold append_each. revert parts.
  induction entries as [|e entries IH]; intros parts; simpl.
  - by rewrite app_nil_r.
  - by rewrite IH, <- app_assoc.
Qed.

(** C8: the text of a structured resume record is the newline-joined
    sequence of the non-empty parts among: full name, headline, location,
    summary; one line per education entry (school, degree, details,
    duration, joined by spaces); one per experience entry (title, company,
    description, duration); one per project entry (title, tech,
    description, duration); the skills joined by spaces; the achievements.
    An absent section or field counts as the empty string; the function
    is total. *)
Theorem resume_json_to_text_spec (r : resume_json) :
  resume_json_to_text r =
  Str.join nl (filter (λ p, p ≠ "") (resume_parts r)).
Proof.
  unfold resume_json_to_text, resume_parts.
  rewrite !append_each_map. cbn [app].
  rewrite <- !app_assoc. cbn [app].
  f_equal.
  assert (Hfield : ∀ d k, get_str (default ∅ d) k = field d k).
  { intros [m|] k; unfold get_str, field; simpl; [done|].
    by rewrite lookup_empty. }
  assert (Hline : ∀ k1 k2 k3 k4 e,
             join_fields [k1; k2; k3; k4] e = line e k1 k2 k3 k4).
  { intros. unfold join_fields, line, field, get_str. simpl.
    by repeat destruct (e !! _). }
  rewrite !Hfield.
  unfold education_keys, experience_keys, project_keys.
  rewrite !(map_ext _ _ (Hline _ _ _ _)).
  assert (Hflt : ∀ l : list string,
             filter (λ p, Str.truthy p = true) l = filter (λ p, p ≠ "") l).
  { intros l. apply list_filter_iff. intros p. apply evaluated_iff. }
  rewrite Hflt. by destruct (summary r), (education r), (experience r),
    (projects r), (skills r), (achievements r).
Qed.

(** ** Temporary files *)

Lemma fresh_path_free (m : gmap nat string) : m !! fresh (dom m) = None.
Proof. apply not_elem_of_dom, is_fresh. Qed.

Lemma delete_temp (m : gmap nat string) (a b : string) :
  let p := fresh (dom m) in
  delete p (<[p := b]> (<[p := a]> m)) = m.
Proof.
  intros p. rewrite insert_insert_eq, delete_insert_eq.
  apply delete_id, fresh_path_free.
Qed.

(** ** [extract_text_from_docx] and [extract_text] *)

(** Unfolds the combinators of [M] so that a run computes. *)
Ltac run :=
  unfold best_effort in *;
  unfold call, try_finally, try_except, io, get_local,
    set_local, ret, raise, mbind, mret, M_bind, M_ret in *;
  cbn.

Lemma extract_text_from_docx_path (L : libs) (p : nat) (w : world) :
  extract_text_from_docx L (Path p) w = (docx_result L (fs w !! p), w).
Proof.
  unfold extract_text_from_docx, docx_result. destruct w as [m f]. run.
  destruct (docx L) as [Document|]; cbn; [|done].
  unfold IO.parse_file. cbn.
  destruct (m !! p) as [bytes|]; cbn; [|done].
  by destruct (Document bytes).
Qed.

Lemma or_empty_id (x : string) : or_empty x = x.
Proof. by destruct x. Qed.

Lemma rewound_set_pos (f : stream) (n : nat) :
  closed f = false →
  rewound (IO.set_pos n f) = if seekable f then IO.set_pos 0 f
                             else IO.set_pos n f.
Proof. intros Hc. unfold rewound. cbn. by rewrite Hc. Qed.

(** The [finally] block never raises; it removes the file [tmp_name]
    names, if any, and rewinds the upload when [seek] allows it. *)
Lemma extract_text_finally_run (w : world) (tmp_name : option nat) :
  extract_text_finally (w, tmp_name) =
  (Ok tt,
   ({| fs := match tmp_name with
             | Some p => delete p (fs w)
             | None => fs w
             end;
       upload := rewound (upload w) |}, tmp_name)).
Proof.
  destruct w as [m f]. unfold extract_text_finally, rewound. run.
  unfold IO.seek, IO.unlink. cbn.
  destruct tmp_name as [p|]; run.
  - destruct (m !! p) eqn:E; cbn.
    + by destruct (closed f), (seekable f).
    + rewrite (delete_id m p E). by destruct (closed f), (seekable f).
  - by destruct (closed f), (seekable f).
Qed.

Lemma extract_text_closed (L : libs) (w : world) :
  closed (upload w) = true → extract_text L w = (Raise ValueError, w).
Proof.
  intros Hc. unfold extract_text, call, try_finally.
  assert (Ht : extract_text_try L (suffix_of (upload w)) (w, None)
               = (Raise ValueError, (w, None))).
  { unfold extract_text_try. run. unfold IO.read. by rewrite Hc. }
  rewrite Ht, extract_text_finally_run. unfold rewound. rewrite Hc.
  by destruct w.
Qed.

Lemma extract_text_try_binary (L : libs) (w : world) (suffix : string) :
  closed (upload w) = false → binary (upload w) = true →
  let p := fresh (dom (fs w)) in
  extract_text_try L suffix (w, None) =
  (extract_result L suffix (remaining (upload w)),
   ({| fs := <[p := remaining (upload w)]> (fs w);
       upload := IO.set_pos (String.length (content (upload w))) (upload w) |},
    Some p)).
Proof.
  intros Hc Hb p. destruct w as [m f]. cbn in Hc, Hb, p.
  unfold extract_text_try, extract_result. run.
  unfold IO.read, IO.with_fs, IO.with_upload. cbn. rewrite Hc, Hb. cbn.
  fold p. fold (remaining f).
  rewrite lookup_insert_eq. cbn. rewrite insert_insert_eq.
  change ("" +:+ remaining f) with (remaining f).
  destruct (suffix =? ".pdf")%string, (extract_text_from_pdf L) as [pdf|];
    cbn.
  1: { unfold IO.parse_file. cbn. rewrite lookup_insert_eq.
       destruct (pdf (remaining f)); cbn; [|done]. by rewrite or_empty_id. }
  all: rewrite extract_text_from_docx_path; cbn; rewrite lookup_insert_eq.
  all: destruct (docx_result L (Some (remaining f))); cbn; [|done].
  all: by rewrite or_empty_id.
Qed.

Lemma extract_text_binary (L : libs) (w : world) :
  closed (upload w) = false → binary (upload w) = true →
  extract_text L w =
  (extract_result L (suffix_of (upload w)) (remaining (upload w)),
   {| fs := fs w;
      upload := if seekable (upload w) then IO.set_pos 0 (upload w)
                else IO.set_pos (String.length (content (upload w)))
                                (upload w) |}).
Proof.
  intros Hc Hb. unfold extract_text, call, try_finally.
  rewrite extract_text_try_binary, extract_text_finally_run by done.
  cbn. rewrite rewound_set_pos by done.
  rewrite delete_insert_eq, delete_id by apply fresh_path_free.
  done.
Qed.

(** A text stream: [tmp.write] raises before [tmp_name] is set, and the
    empty temporary file stays on disk. *)
Lemma extract_text_text_stream (L : libs) (w : world) :
  closed (upload w) = false → binary (upload w) = false →
  extract_text L w =
  (Raise TypeError,
   {| fs := <[fresh (dom (fs w)) := ""]> (fs w);
      upload := if seekable (upload w) then IO.set_pos 0 (upload w)
                else IO.set_pos (String.length (content (upload w)))
                                (upload w) |}).
Proof.
  intros Hc Hb. unfold extract_text, call, try_finally.
  assert (Ht : extract_text_try L (suffix_of (upload w)) (w, None)
               = (Raise TypeError,
                  ({| fs := <[fresh (dom (fs w)) := ""]> (fs w);
                      upload := IO.set_pos (String.length (content (upload w)))
                                           (upload w) |}, None))).
  { destruct w as [m f]. cbn in Hc, Hb. unfold extract_text_try. run.
    unfold IO.read. cbn. by rewrite Hc, Hb. }
  rewrite Ht, extract_text_finally_run. cbn.
  by rewrite rewound_set_pos.
Qed.

(** C6: on the DOCX path an exception of the parser is not replaced by the
    empty string: [extract_text] raises it to its caller. (The PDF path
    wraps its parser in [try]/[except] and returns [''].) *)
Theorem docx_parse_error_escapes (L : libs) (w : world)
    (Document : string → result (list string)) (e : exn) :
  docx L = Some Document →
  closed (upload w) = false →
  binary (upload w) = true →
  suffix_of (upload w) = ".docx" →
  Document (remaining (upload w)) = Raise e →
  (extract_text L w).1 = Raise e
  ∧ (extract_text_from_docx L FileObj w).1 = Raise e.
Proof.
  intros HD Hc Hb Hs He. split.
  - rewrite extract_text_binary by done. cbn.
    unfold extract_result, docx_result. rewrite Hs, HD, He. done.
  - destruct w as [m f]. cbn in *. unfold extract_text_from_docx. run.
    unfold IO.read, IO.with_fs, IO.with_upload. cbn. rewrite Hc, Hb, HD. cbn.
    rewrite lookup_insert_eq. cbn. unfold IO.parse_file. cbn.
    rewrite insert_insert_eq, lookup_insert_eq.
    change ("" +:+ ?x) with x. fold (remaining f). rewrite He. cbn.
    unfold IO.unlink. cbn. by rewrite lookup_insert_eq.
Qed.

(** The parser rejects the bytes of "cv.docx" and both entry points
    raise its exception. *)
Lemma docx_parse_error_escapes_witness :
  (extract_text docx_only (sample_world "cv.docx" "not a zip archive")).1
  = Raise PackageNotFoundError
  ∧ (extract_text_from_docx docx_only FileObj
       (sample_world "cv.docx" "not a zip archive")).1
    = Raise PackageNotFoundError.
Proof.
  apply (docx_parse_error_escapes docx_only
           (sample_world "cv.docx" "not a zip archive") sample_docx
           PackageNotFoundError); reflexivity.
Defined.

(** C7 fails as stated: an upload that cannot seek is left where [read()]
    ended, the failure of [seek(0)] being swallowed. *)
Lemma unseekable_upload_not_rewound :
  let w := {| fs := ∅;
              upload := {| name := Some "cv.docx"; binary := true;
                           content := "PK"; pos := 0;
                           seekable := false; closed := false |} |} in
  pos (upload (extract_text docx_only w).2) = 2%nat
  ∧ ¬ claimed_frame w (extract_text docx_only w).2.
Proof.
  intros w. rewrite extract_text_binary by done. cbn. split; [done|].
  intros [_ H]. discriminate.
Qed.

(** C7, as amended: for an upload read as bytes, the files on disk after
    [extract_text] are those before it, on a normal return as on a raised
    exception: the temporary copy is gone. The upload keeps its name and
    content; it is at position 0 when it is open and can seek, and
    otherwise where [read()] left it. The parsers were run on the bytes
    of the copy. *)
Theorem extract_text_frame (L : libs) (w : world) :
  binary (upload w) = true →
  let f := upload w in
  let out := extract_text L w in
  fs out.2 = fs w
  ∧ upload out.2 =
      (if closed f then f
       else if seekable f then IO.set_pos 0 f
       else IO.set_pos (String.length (content f)) f)
  ∧ (closed f = false →
     out.1 = extract_result L (suffix_of f) (remaining f))
  ∧ (closed f = true → out.1 = Raise ValueError).
Proof.
  intros Hb f out. subst out f.
  destruct (closed (upload w)) eqn:Hc.
  - rewrite extract_text_closed by done. done.
  - rewrite extract_text_binary by done. done.
Qed.

(** A well-formed "cv.docx": its text is returned, no file is left and
    the upload is back at its start. *)
Lemma extract_text_frame_witness :
  let w := sample_world "cv.docx" "PK..." in
  fs (extract_text docx_only w).2 = ∅
  ∧ pos (upload (extract_text docx_only w).2) = 0%nat
  ∧ (extract_text docx_only w).1 = Ok ("Skills" +:+ nl +:+ "Python").
Proof.
  intros w.
  destruct (extract_text_frame docx_only w eq_refl) as (Hfs & Hup & Hr & _).
  rewrite Hfs, Hup, (Hr eq_refl). repeat split.
Defined.

(** ** The order of [sorted] on strings *)

Lemma ascii_compare_N (a b : ascii) :
  Ascii.compare a b = N.compare (N_of_ascii a) (N_of_ascii b).
Proof. reflexivity. Qed.

Lemma string_compare_lt_trans (s1 s2 s3 : string) :
  String.compare s1 s2 = Lt → String.compare s2 s3 = Lt →
  String.compare s1 s3 = Lt.
Proof.
  revert s2 s3. induction s1 as [|a s1 IH]; intros [|b s2] [|c s3]; simpl;
    try done.
  rewrite !ascii_compare_N.
  destruct (N.compare_spec (N_of_ascii a) (N_of_ascii b)) as [Hab|Hab|Hab];
    [| |done];
    destruct (N.compare_spec (N_of_ascii b) (N_of_ascii c)) as [Hbc|Hbc|Hbc];
    try done; intros H1 H2.
  - rewrite Hab, Hbc, N.compare_refl. eauto.
  - rewrite Hab. apply N.compare_lt_iff in Hbc. by rewrite Hbc.
  - rewrite <- Hbc. apply N.compare_lt_iff in Hab. by rewrite Hab.
  - assert (Hac : (N_of_ascii a < N_of_ascii c)%N) by lia.
    apply N.compare_lt_iff in Hac. by rewrite Hac.
Qed.

Lemma str_le_cases (a b : string) :
  str_le a b ↔ a = b ∨ String.compare a b = Lt.
Proof.
  unfold str_le, String.leb. split.
  - destruct (String.compare a b) eqn:E; [|by right|done].
    left. by apply String.compare_eq_iff.
  - intros [-> | ->]; [|done].
    destruct (String.compare b b) eqn:E; try done.
    pose proof (String.compare_antisym b b) as H. rewrite E in H.
    discriminate.
Qed.

#[global] Instance str_le_trans : Transitive str_le.
Proof.
  intros a b c. rewrite !str_le_cases. intros [-> | Hab] [-> | Hbc]; auto.
  right. eauto using string_compare_lt_trans.
Qed.

#[global] Instance str_le_total : Total str_le.
Proof. intros a b. apply String.leb_total. Qed.

Lemma sorted_set_spec (l : list string) :
  StronglySorted str_le (sorted_set l) ∧ NoDup (sorted_set l)
  ∧ ∀ x, x ∈ sorted_set l ↔ x ∈ l.
Proof.
  unfold sorted_set. split; [|split].
  - apply StronglySorted_merge_sort; apply _.
  - rewrite merge_sort_Permutation. apply NoDup_elements.
  - intros x. rewrite merge_sort_Permutation, elem_of_elements.
    apply elem_of_list_to_set.
Qed.

(** ** The application boundary *)

(** C9: when the posting lists no required skill, the keywords are taken
    from the description: they are tokens of the tokenizer, longer than 2
    characters, without repetition, at most 40, in ascending order; a
    token longer than 2 characters is left out only when 40 keywords are
    kept and all of them sort before it. A posting with required skills
    keeps them as its keywords. *)
Theorem fallback_keywords_spec (d : string) :
  let tokens := normalize_tokens d in
  let kws := fallback_keywords d in
  (length kws ≤ 40)%nat
  ∧ NoDup kws
  ∧ StronglySorted str_le kws
  ∧ (∀ k, k ∈ kws → k ∈ tokens ∧ 2 < String.length k)
  ∧ (∀ t, t ∈ tokens → 2 < String.length t →
          t ∈ kws ∨ (length kws = 40 ∧ ∀ k, k ∈ kws → str_le k t))
  ∧ (∀ skills, job_keywords {| required_skills := skills; description := d |}
               = match skills with [] => kws | _ :: _ => skills end).
Proof.
  intros tokens kws. subst tokens kws. unfold fallback_keywords.
  rewrite findall_lower_normalize.
  set (cand := filter (λ t, 2 < String.length t) (normalize_tokens d)).
  destruct (sorted_set_spec cand) as (Hsorted & Hnodup & Hin).
  rewrite <- (take_drop 40 (sorted_set cand)) in Hsorted.
  repeat split.
  - rewrite length_take. lia.
  - eapply sublist_NoDup; [exact Hnodup | apply sublist_take].
  - by apply StronglySorted_app_1_l in Hsorted.
  - eapply elem_of_sublist in H; [|apply sublist_take].
    apply Hin, list_elem_of_filter in H. tauto.
  - eapply elem_of_sublist in H; [|apply sublist_take].
    apply Hin, list_elem_of_filter in H. tauto.
  - intros t Ht Hlen.
    assert (Hc : t ∈ sorted_set cand).
    { apply Hin, list_elem_of_filter. done. }
    rewrite <- (take_drop 40 (sorted_set cand)) in Hc.
    apply elem_of_app in Hc as [Hc|Hc]; [by left|right]. split.
    + rewrite length_take. apply list_elem_of_lookup in Hc as [i Hi].
      apply lookup_lt_Some in Hi. rewrite length_drop in Hi. lia.
    + intros k Hk. eapply StronglySorted_app_1_elem_of; eauto.
  - intros [|s skills]; [|done].
    unfold job_keywords, fallback_keywords. cbn [required_skills description].
    by rewrite findall_lower_normalize.
Qed.

(** C10: at the application boundary the resume text is what
    [extract_text] returns, and [''] when it raises, whatever it raises;
    the upload is then rewound when it is open and can seek, the failure
    of that [seek(0)] being swallowed; and the score is computed from
    that text: the boundary returns normally for every upload, library
    binding and posting. *)
Theorem apply_start_score_completes (L : libs) (j : job) (w : world) :
  let out := extract_text L w in
  let resume_text := match out.1 with Ok t => t | Raise _ => "" end in
  apply_start_score L j w =
  (Ok (compute_ats_score L (job_keywords j) resume_text default_threshold),
   {| fs := fs out.2; upload := rewound (upload out.2) |}).
Proof.
  intros out resume_text. subst resume_text out.
  unfold apply_start_score, apply_start_resume_text. run.
  destruct (extract_text L w) as [[t|e] [m f]]; cbn;
    unfold IO.seek, rewound; cbn; rewrite ?or_empty_id;
    by destruct (closed f), (seekable f).
Qed.

(** * Further properties of the code *)

(** ** The lists, counted *)

Lemma lower_empty_iff (x : string) : Str.lower x = "" ↔ x = "".
Proof. by destruct x. Qed.

Lemma strip_empty_string : Str.strip "" = "".
Proof. reflexivity. Qed.

Lemma matched_missing_permutation (L : libs) (K : list string) (T : string)
    (thr : float) :
  matched_of (compute_ats_score L K T thr)
  ++ missing_of (compute_ats_score L K T thr)
  ≡ₚ filter (λ kw, kw ≠ "") K.
Proof.
  rewrite matched_of_spec, missing_of_spec.
  set (h := hit L thr _ _).
  rewrite <- (list_filter_iff evaluated (λ kw, kw ≠ "") K evaluated_iff).
  rewrite <- (filter_app_complement h (filter evaluated K)).
  rewrite !list_filter_filter.
  rewrite (list_filter_iff (λ kw, evaluated kw ∧ h kw)
             (λ kw, h kw ∧ evaluated kw)) by (intros; tauto).
  by rewrite (list_filter_iff (λ kw, evaluated kw ∧ ¬ h kw)
                (λ kw, ¬ h kw ∧ evaluated kw)) by (intros; tauto).
Qed.

(** X1: the two lists together hold every keyword that is not the empty
    string, as often as the input lists it: they are a permutation of
    those keywords, and their lengths add up to the number of such
    keywords, at most the length of the input. *)
Theorem matched_missing_count (L : libs) (K : list string) (T : string)
    (thr : float) :
  let r := compute_ats_score L K T thr in
  matched_of r ++ missing_of r ≡ₚ filter (λ kw, kw ≠ "") K
  ∧ length (matched_of r) + length (missing_of r)
    = length (filter (λ kw, kw ≠ "") K)
  ∧ length (matched_of r) + length (missing_of r) ≤ length K.
Proof.
  intros r. subst r.
  pose proof (matched_missing_permutation L K T thr) as Hperm.
  split; [done|]. rewrite <- length_app, Hperm. split; [done|].
  apply length_filter.
Qed.

(** X23: whatever the keywords, each of the two lists is a subsequence
    of the keyword list, so in input order and with the keywords as
    given; no keyword is in both; and a keyword is in one of them exactly
    when it is a keyword of the input other than the empty string. *)
Theorem matched_missing_in_order (L : libs) (K : list string) (T : string)
    (thr : float) :
  let r := compute_ats_score L K T thr in
  sublist (matched_of r) K
  ∧ sublist (missing_of r) K
  ∧ (∀ kw, ¬ (kw ∈ matched_of r ∧ kw ∈ missing_of r))
  ∧ (∀ kw, kw ∈ matched_of r ∨ kw ∈ missing_of r ↔ kw ∈ K ∧ kw ≠ "").
Proof.
  intros r. subst r. rewrite matched_of_spec, missing_of_spec.
  set (h := hit L thr _ _).
  split; [apply sublist_filter|].
  split; [apply sublist_filter|].
  split; [intros kw; rewrite !list_elem_of_filter; tauto|].
  intros kw. rewrite !list_elem_of_filter, <- evaluated_iff.
  destruct (decide (h kw)); tauto.
Qed.

(** ** Strings as lists of characters *)

Lemma string_app_nil_r (a : string) : a +:+ "" = a.
Proof.
  induction a as [|c a IH]; [done|].
  change (String c (a +:+ "") = String c a). by f_equal.
Qed.

Lemma string_app_assoc (a b c : string) : (a +:+ b) +:+ c = a +:+ (b +:+ c).
Proof.
  induction a as [|x a IH]; [done|].
  change (String x ((a +:+ b) +:+ c) = String x (a +:+ (b +:+ c))).
  by f_equal.
Qed.

Lemma chars_app (a b : string) :
  Str.chars (a +:+ b) = Str.chars a ++ Str.chars b.
Proof.
  induction a as [|x a IH]; [done|].
  change (x :: Str.chars (a +:+ b) = x :: (Str.chars a ++ Str.chars b)).
  by f_equal.
Qed.

Lemma chars_of_chars (l : list ascii) : Str.chars (Str.of_chars l) = l.
Proof. apply list_ascii_of_string_of_list_ascii. Qed.

Lemma of_chars_chars (s : string) : Str.of_chars (Str.chars s) = s.
Proof. apply string_of_list_ascii_of_string. Qed.

Lemma of_chars_inj (l k : list ascii) : Str.of_chars l = Str.of_chars k → l = k.
Proof. intros H. by rewrite <- (chars_of_chars l), H, chars_of_chars. Qed.

Lemma chars_inj (a b : string) : Str.chars a = Str.chars b → a = b.
Proof. intros H. by rewrite <- (of_chars_chars a), H, of_chars_chars. Qed.

(** ** The tiers, composed *)

(** Every element of a list of strings occurs in the list joined by a
    separator. *)
Lemma occurs_join (sep k : string) (l : list string) :
  k ∈ l → occurs k (Str.join sep l).
Proof.
  induction l as [|x l IH]; intros Hk; [by apply not_elem_of_nil in Hk|].
  apply elem_of_cons in Hk as [->|Hk].
  - destruct l as [|y l].
    + exists "", "". change (x = x +:+ ""). by rewrite string_app_nil_r.
    + exists "", (sep +:+ Str.join sep (y :: l)). done.
  - destruct l as [|y l]; [by apply not_elem_of_nil in Hk|].
    destruct (IH Hk) as (a & b & Hab).
    exists (x +:+ sep +:+ a), b.
    change (Str.join sep (x :: y :: l))
      with (x +:+ sep +:+ Str.join sep (y :: l)).
    by rewrite Hab, !string_app_assoc.
Qed.

Lemma classic_occurs (k s : string) : occurs k s ∨ ¬ occurs k s.
Proof. rewrite <- contains_spec. destruct (Str.contains k s); auto. Qed.

(** X2: the exact tier never decides alone: a token of the resume occurs
    in the joined tokens, so a keyword is matched exactly when it is not
    the empty string and its trimmed, lower-cased form occurs in the
    space-joined tokens of the resume or, failing that, is accepted by
    the fuzzy matcher. *)
Theorem matched_iff_occurs_or_fuzzy (L : libs) (K : list string) (T : string)
    (thr : float) (kw : string) :
  let rt := Str.join " " (normalize_tokens T) in
  let k := Str.lower (Str.strip kw) in
  kw ∈ matched_of (compute_ats_score L K T thr) ↔
  kw ∈ K ∧ kw ≠ "" ∧ (occurs k rt ∨ fuzzy_accepts L thr k rt).
Proof.
  intros rt k. rewrite matched_of_spec, list_elem_of_filter, evaluated_iff.
  fold rt. rewrite hit_iff. fold k.
  set (toks := normalize_tokens T) in *.
  pose proof (match_tier_exact L thr k toks rt) as He.
  pose proof (match_tier_substring L thr k toks rt) as Hs.
  pose proof (match_tier_fuzzy L thr k toks rt) as Hf.
  assert (Hin : k ∈ toks → occurs k rt) by apply occurs_join.
  unfold fuzzy_accepts.
  destruct (match_tier L thr k toks rt) as [[| |]|] eqn:E.
  - split; [|intros (? & ? & _); by repeat split].
    intros [[? _] ?]. repeat split; try done. left. apply Hin. by apply He.
  - split; [|intros (? & ? & _); by repeat split].
    intros [[? _] ?]. repeat split; try done. left.
    by destruct Hs as [[_ ?] _].
  - split; [|intros (? & ? & _); by repeat split].
    intros [[? _] ?]. repeat split; try done. right.
    destruct Hf as [(_ & _ & ? & ?) _]; done.
  - split; [intros [[_ [? ?]] _]; done|].
    intros (HK & Hne & [Ho|Hfz]); exfalso.
    + destruct (decide (k ∈ toks)) as [Hk|Hk].
      * apply He in Hk. discriminate.
      * destruct Hs as [_ Hs']. specialize (Hs' (conj Hk Ho)). discriminate.
    + destruct (decide (k ∈ toks)) as [Hk|Hk]; [apply He in Hk; discriminate|].
      destruct (classic_occurs k rt) as [Ho|Ho].
      * destruct Hs as [_ Hs']. specialize (Hs' (conj Hk Ho)). discriminate.
      * destruct Hf as [_ Hf']. destruct Hfz as [Hhas Hex].
        specialize (Hf' (conj Hk (conj Ho (conj Hhas Hex)))). discriminate.
Qed.

(** ** An empty resume text *)

Lemma hit_empty_text (L : libs) (thr : float) (kw : string) :
  _HAS_RAPIDFUZZ L = false ∨ fuzz L = None →
  hit L thr [] "" kw ↔ Str.strip kw = "".
Proof.
  intros Hno. unfold hit, matched_flag, match_tier. cbn [Str.mem existsb].
  rewrite <- (lower_empty_iff (Str.strip kw)).
  destruct (Str.lower (Str.strip kw)) as [|c k]; [done|].
  cbn. destruct Hno as [-> | ->]; [done|]. by destruct (_HAS_RAPIDFUZZ L).
Qed.

(** X3: against an empty resume text (what a failed extraction leaves),
    when no fuzzy matcher is bound, every keyword that is not empty after
    trimming is missing; the matched list holds only the keywords made of
    whitespace. *)
Theorem empty_resume_text_lists (L : libs) (K : list string) (thr : float) :
  _HAS_RAPIDFUZZ L = false ∨ fuzz L = None →
  let r := compute_ats_score L K "" thr in
  matched_of r = filter (λ kw, kw ≠ "" ∧ Str.strip kw = "") K
  ∧ missing_of r = filter (λ kw, Str.strip kw ≠ "") K.
Proof.
  intros Hno r. subst r. rewrite matched_of_spec, missing_of_spec.
  change (normalize_tokens "") with (@nil string).
  change (Str.join " " []) with "".
  split; apply list_filter_iff; intros kw;
    rewrite evaluated_iff, (hit_empty_text L thr kw Hno).
  - done.
  - split; [tauto|]. intros H. split; [|done]. intros ->. by apply H.
Qed.

(** Four keywords, two of them blank, against an empty text. *)
Lemma empty_resume_text_lists_witness :
  let r := compute_ats_score no_libs ["Python"; " "; ""; "AWS"] ""
             default_threshold in
  matched_of r = [" "] ∧ missing_of r = ["Python"; "AWS"].
Proof.
  exact (empty_resume_text_lists no_libs ["Python"; " "; ""; "AWS"]
           default_threshold (or_introl eq_refl)).
Defined.

(** ** What a token looks like *)

Lemma lower_char_idem (c : ascii) : Char.lower (Char.lower c) = Char.lower c.
Proof. by destruct c as [[] [] [] [] [] [] [] []]. Qed.

Lemma lower_char_not_upper (c : ascii) : Char.is_upper (Char.lower c) = false.
Proof. by destruct c as [[] [] [] [] [] [] [] []]. Qed.

Lemma isspace_lower_char (c : ascii) :
  Char.isspace (Char.lower c) = Char.isspace c.
Proof. by destruct c as [[] [] [] [] [] [] [] []]. Qed.

Lemma in_class_not_space (c : ascii) :
  Char.in_class c = true → Char.isspace c = false.
Proof. by destruct c as [[] [] [] [] [] [] [] []]. Qed.

Lemma lstrip_id (l : list ascii) :
  Forall (λ c, Char.isspace c = false) l → Str.lstrip l = l.
Proof. intros [|c l' Hc _]; [done|]. cbn. by rewrite Hc. Qed.

Lemma rstrip_id (l : list ascii) :
  Forall (λ c, Char.isspace c = false) l → Str.rstrip l = l.
Proof.
  intros H. unfold Str.rstrip. rewrite lstrip_id by by apply Forall_rev.
  apply rev_involutive.
Qed.

(** The tokens, with the offsets they were found at. *)
Lemma normalize_tokens_spans (text : string) :
  let s := map Char.lower (Str.chars text) in
  ∃ spans : list (nat * nat),
    normalize_tokens text = map (λ ab, Str.of_chars (sub s ab.1 ab.2)) spans
    ∧ ∀ a b, (a, b) ∈ spans → token_span s a b.
Proof.
  intros s. exists (spans_from None 0 0 s).
  destruct (spans_from_spec s [] 0) as (Hiff & _ & _).
  { split; cbn; [intros a b Ha; lia | lia]. }
  cbn [app length last] in Hiff. split.
  - rewrite <- findall_lower_normalize. unfold Regex.findall.
    rewrite chars_lower. fold s.
    pose proof (findall_from_spans s [] 0) as Hf.
    cbn [app length last] in Hf. rewrite Hf. by rewrite map_map.
  - intros a b Hab. by apply Hiff in Hab as [? _].
Qed.

Lemma sub_lookup (s : list ascii) (a b i : nat) (c : ascii) :
  sub s a b !! i = Some c → s !! (a + i) = Some c ∧ a + i < b.
Proof.
  unfold sub. intros H. apply lookup_take_Some in H as [H Hi].
  rewrite lookup_drop in H. split; [done | lia].
Qed.

(** The shape of a token. *)
Lemma token_shape (text t : string) :
  t ∈ normalize_tokens text →
  t ≠ ""
  ∧ Forall (λ c, Char.in_class c = true ∧ Char.is_upper c = false)
           (Str.chars t)
  ∧ Str.lower t = t
  ∧ Str.strip t = t.
Proof.
  intros Ht. destruct (normalize_tokens_spans text) as (spans & Htok & Hspan).
  set (s := map Char.lower (Str.chars text)) in *.
  rewrite Htok in Ht. apply list_elem_of_fmap in Ht as ([a b] & -> & Hab).
  cbn [fst snd]. apply Hspan in Hab as [(Hlt & Hall & _) _].
  set (l := sub s a b).
  assert (Hl : Forall (λ c, Char.in_class c = true ∧ Char.is_upper c = false
                            ∧ Char.lower c = c) l).
  { apply Forall_lookup. intros i c Hi. apply sub_lookup in Hi as [Hi Hib].
    destruct (Hall (a + i)) as (c' & Hc' & Hin); [lia|].
    rewrite Hi in Hc'. injection Hc' as <-. split; [done|].
    unfold s in Hi. rewrite list_lookup_fmap in Hi.
    destruct (Str.chars text !! (a + i)) as [d|]; [|done].
    injection Hi as <-. by rewrite lower_char_not_upper, lower_char_idem. }
  assert (Hne : l ≠ []).
  { destruct (Hall a) as (c & Hc & _); [lia|].
    intros Hnil. assert (Hlen : length l = 0) by by rewrite Hnil.
    unfold l, sub in Hlen. rewrite length_take, length_drop in Hlen.
    apply lookup_lt_Some in Hc. lia. }
  assert (Hsp : Forall (λ c, Char.isspace c = false) l).
  { eapply Forall_impl; [exact Hl|]. intros c [Hc _].
    by apply in_class_not_space. }
  split; [|split; [|split]].
  - intros H. apply Hne. apply of_chars_inj. by rewrite H.
  - rewrite chars_of_chars. eapply Forall_impl; [exact Hl|].
    by intros c (? & ? & _).
  - unfold Str.lower. rewrite chars_of_chars. f_equal.
    rewrite <- (map_id l) at 2. apply map_ext_Forall.
    eapply Forall_impl; [exact Hl|]. by intros c (_ & _ & ?).
  - unfold Str.strip. rewrite chars_of_chars.
    by rewrite (lstrip_id l Hsp), (rstrip_id l Hsp).
Qed.

(** X4: every token is a non-empty string of characters of the class,
    none of them an upper-case letter; lower-casing or trimming a token
    gives the token back. *)
Theorem tokens_wellformed (text t : string) :
  t ∈ normalize_tokens text →
  t ≠ ""
  ∧ Forall (λ c, Char.in_class c = true ∧ Char.is_upper c = false)
           (Str.chars t)
  ∧ Str.lower t = t
  ∧ Str.strip t = t.
Proof. apply token_shape. Qed.

(** The tokens of the specification's example. *)
Lemma tokens_wellformed_witness :
  "django-2.0" ≠ ""
  ∧ Forall (λ c, Char.in_class c = true ∧ Char.is_upper c = false)
           (Str.chars "django-2.0")
  ∧ Str.lower "django-2.0" = "django-2.0"
  ∧ Str.strip "django-2.0" = "django-2.0".
Proof.
  apply (tokens_wellformed "Python, SQL!! Django-2.0" "django-2.0").
  vm_compute. do 2 apply list_elem_of_further. apply list_elem_of_here.
Defined.

(** ** Keywords that are tokens of the text *)

Lemma filter_all {A} (P : A → Prop) `{∀ x, Decision (P x)} (l : list A) :
  (∀ x, x ∈ l → P x) → filter P l = l.
Proof.
  induction l as [|x l IH]; intros H'; [done|].
  rewrite filter_cons, decide_True by (apply H'; apply list_elem_of_here).
  f_equal. apply IH. intros y Hy. apply H'. by apply list_elem_of_further.
Qed.

Lemma filter_none {A} (P : A → Prop) `{∀ x, Decision (P x)} (l : list A) :
  (∀ x, x ∈ l → ¬ P x) → filter P l = [].
Proof.
  induction l as [|x l IH]; intros H'; [done|].
  rewrite filter_cons, decide_False by (apply H'; apply list_elem_of_here).
  apply IH. intros y Hy. apply H'. by apply list_elem_of_further.
Qed.

Lemma token_hit (L : libs) (thr : float) (T kw : string) :
  kw ∈ normalize_tokens T →
  evaluated kw
  ∧ hit L thr (normalize_tokens T) (Str.join " " (normalize_tokens T)) kw.
Proof.
  intros Hkw. destruct (token_shape T kw Hkw) as (Hne & _ & Hlow & Hstrip).
  split; [by apply evaluated_iff|].
  apply hit_iff. rewrite Hstrip, Hlow.
  assert (match_tier L thr kw (normalize_tokens T)
            (Str.join " " (normalize_tokens T)) = Some Exact) as ->
    by by apply match_tier_exact.
  done.
Qed.

(** X5: when every keyword is a token of the resume text, every keyword
    is matched, by the exact tier, and none is missing, whatever the
    libraries and the threshold. *)
Theorem token_keywords_all_matched (L : libs) (K : list string) (T : string)
    (thr : float) :
  (∀ kw, kw ∈ K → kw ∈ normalize_tokens T) →
  let r := compute_ats_score L K T thr in
  matched_of r = K ∧ missing_of r = [].
Proof.
  intros HK r. subst r. rewrite matched_of_spec, missing_of_spec. split.
  - apply filter_all. intros kw Hkw. by apply token_hit, HK.
  - apply filter_none. intros kw Hkw [_ Hno]. apply Hno.
    by apply token_hit, HK.
Qed.

(** Two tokens of a text, as its keywords. *)
Lemma token_keywords_all_matched_witness :
  let r := compute_ats_score no_libs ["sql"; "django-2.0"]
             "Python, SQL!! Django-2.0" default_threshold in
  matched_of r = ["sql"; "django-2.0"] ∧ missing_of r = [].
Proof.
  apply (token_keywords_all_matched no_libs ["sql"; "django-2.0"]
           "Python, SQL!! Django-2.0" default_threshold).
  intros kw Hkw. vm_compute.
  apply elem_of_cons in Hkw as [-> | Hkw].
  - apply list_elem_of_further, list_elem_of_here.
  - apply list_elem_of_singleton in Hkw as ->.
    do 2 apply list_elem_of_further. apply list_elem_of_here.
Defined.

Lemma fallback_keywords_are_tokens (d kw : string) :
  kw ∈ fallback_keywords d → kw ∈ normalize_tokens d.
Proof.
  unfold fallback_keywords. rewrite findall_lower_normalize. intros H.
  eapply elem_of_sublist in H; [|apply sublist_take].
  apply sorted_set_spec, list_elem_of_filter in H. tauto.
Qed.

(** X6: a resume whose text is the description of the posting matches
    every keyword that [apply_start] derives from that description: none
    of the fallback keywords is missing. *)
Theorem fallback_keywords_match_description (L : libs) (d : string)
    (thr : float) :
  let r := compute_ats_score L (fallback_keywords d) d thr in
  matched_of r = fallback_keywords d ∧ missing_of r = [].
Proof.
  intros r. subst r. rewrite matched_of_spec, missing_of_spec. split.
  - apply filter_all. intros kw Hkw.
    by apply token_hit, fallback_keywords_are_tokens.
  - apply filter_none. intros kw Hkw [_ Hno]. apply Hno.
    by apply token_hit, fallback_keywords_are_tokens.
Qed.

(** ** Letter case *)

Lemma lower_idem (x : string) : Str.lower (Str.lower x) = Str.lower x.
Proof.
  unfold Str.lower. rewrite chars_of_chars, map_map. f_equal.
  apply map_ext. intros c. apply lower_char_idem.
Qed.

Lemma lstrip_map_lower (l : list ascii) :
  Str.lstrip (map Char.lower l) = map Char.lower (Str.lstrip l).
Proof.
  induction l as [|c l IH]; [done|]. cbn.
  rewrite isspace_lower_char. by destruct (Char.isspace c).
Qed.

Lemma rstrip_map_lower (l : list ascii) :
  Str.rstrip (map Char.lower l) = map Char.lower (Str.rstrip l).
Proof.
  unfold Str.rstrip. by rewrite <- map_rev, lstrip_map_lower, map_rev.
Qed.

Lemma strip_lower (x : string) :
  Str.strip (Str.lower x) = Str.lower (Str.strip x).
Proof.
  unfold Str.strip, Str.lower. rewrite !chars_of_chars.
  by rewrite lstrip_map_lower, rstrip_map_lower.
Qed.

Lemma normalize_tokens_lower (T : string) :
  normalize_tokens (Str.lower T) = normalize_tokens T.
Proof.
  rewrite <- !findall_lower_normalize. by rewrite lower_idem.
Qed.

Lemma filter_map {A B} (f : A → B) (P : B → Prop) `{∀ y, Decision (P y)}
    (l : list A) :
  filter P (map f l) = map f (filter (λ x, P (f x)) l).
Proof.
  induction l as [|x l IH]; [done|]. cbn [map]. rewrite !filter_cons, IH.
  by destruct (decide (P (f x))).
Qed.

(** The score [compute_ats_score] returns, from the list of the matched
    keywords and the keyword list as given. *)
Lemma score_of_spec (L : libs) (K : list string) (T : string) (thr : float) :
  let r := compute_ats_score L K T thr in
  score_of r =
  round1 (100 * (len (matched_of r)
                 / match K with [] => 1 | _ :: _ => len K end))%float.
Proof.
  unfold compute_ats_score.
  by destruct (fold_left _ K ([], [])) as [matched missing].
Qed.

(** X7: matching ignores letter case, in the keywords and in the resume
    text: with every keyword and the text lower-cased, the lists are the
    lower-cased lists and the score is the same. *)
Theorem matching_ignores_case (L : libs) (K : list string) (T : string)
    (thr : float) :
  let r := compute_ats_score L K T thr in
  let r' := compute_ats_score L (map Str.lower K) (Str.lower T) thr in
  matched_of r' = map Str.lower (matched_of r)
  ∧ missing_of r' = map Str.lower (missing_of r)
  ∧ score_of r' = score_of r.
Proof.
  intros r r'.
  assert (Hm : matched_of r' = map Str.lower (matched_of r)).
  { subst r r'. rewrite !matched_of_spec, normalize_tokens_lower, filter_map.
    f_equal. apply list_filter_iff. intros kw. unfold hit.
    rewrite strip_lower, lower_idem, !evaluated_iff, lower_empty_iff. done. }
  split; [done|]. split.
  - subst r r'. rewrite !missing_of_spec, normalize_tokens_lower, filter_map.
    f_equal. apply list_filter_iff. intros kw. unfold hit.
    rewrite strip_lower, lower_idem, !evaluated_iff, lower_empty_iff. done.
  - subst r r'. rewrite !score_of_spec. cbv zeta. rewrite Hm.
    unfold len. rewrite !length_map. by destruct K.
Qed.

(** ** The extraction, path by path *)

(** X8: on the PDF path an exception of the extractor is replaced by the
    empty string: for an upload read as bytes whose name ends in ".pdf",
    with pdfminer bound, [extract_text] returns the extracted text, or
    [''] when the extractor raises, and never raises itself. *)
Theorem pdf_parse_error_recovered (L : libs) (w : world)
    (pdf : string → result string) :
  extract_text_from_pdf L = Some pdf →
  closed (upload w) = false →
  binary (upload w) = true →
  suffix_of (upload w) = ".pdf" →
  (extract_text L w).1 =
  Ok (match pdf (remaining (upload w)) with Ok t => t | Raise _ => "" end).
Proof.
  intros Hp Hc Hb Hs. rewrite extract_text_binary by done. cbn.
  unfold extract_result. rewrite Hs, Hp. cbn.
  by destruct (pdf (remaining (upload w))).
Qed.

(** A corrupt "cv.pdf": the text is empty and nothing is raised. *)
Lemma pdf_parse_error_recovered_witness :
  (extract_text pdf_only (sample_world "cv.pdf" "not a pdf")).1 = Ok "".
Proof.
  exact (pdf_parse_error_recovered pdf_only (sample_world "cv.pdf" "not a pdf")
           sample_pdf eq_refl eq_refl eq_refl eq_refl).
Defined.

(** X9: the DOCX path is the default: an upload whose lower-cased name
    does not end in ".pdf" (any other extension, or no name at all), and
    any upload when pdfminer is not bound, is handed to
    [extract_text_from_docx], whose outcome is the outcome of
    [extract_text]. *)
Theorem other_names_use_docx (L : libs) (w : world) :
  closed (upload w) = false →
  binary (upload w) = true →
  endswith (Str.lower (default "" (name (upload w)))) ".pdf" = false
  ∨ extract_text_from_pdf L = None →
  (extract_text L w).1 = docx_result L (Some (remaining (upload w))).
Proof.
  intros Hc Hb Hor. rewrite extract_text_binary by done. cbn.
  unfold extract_result, suffix_of. destruct Hor as [-> | ->]; [done|].
  by destruct (String.eqb _ _).
Qed.

(** A text file is parsed as DOCX, and the parser's exception is
    raised. *)
Lemma other_names_use_docx_witness :
  (extract_text docx_only (sample_world "notes.txt" "plain text")).1
  = Raise PackageNotFoundError.
Proof.
  exact (other_names_use_docx docx_only (sample_world "notes.txt" "plain text")
           eq_refl eq_refl (or_introl eq_refl)).
Defined.

(** X10: with neither parser bound, [extract_text] returns the empty
    string for every open upload read as bytes, whatever its name and
    content. *)
Theorem no_parser_empty_text (L : libs) (w : world) :
  extract_text_from_pdf L = None →
  docx L = None →
  closed (upload w) = false →
  binary (upload w) = true →
  (extract_text L w).1 = Ok "".
Proof.
  intros Hp Hd Hc Hb. rewrite extract_text_binary by done. cbn.
  unfold extract_result, docx_result. rewrite Hp, Hd.
  by destruct (String.eqb _ _).
Qed.

Lemma no_parser_empty_text_witness :
  (extract_text no_libs (sample_world "cv.pdf" "%PDF-1.7")).1 = Ok "".
Proof.
  exact (no_parser_empty_text no_libs (sample_world "cv.pdf" "%PDF-1.7")
           eq_refl eq_refl eq_refl eq_refl).
Defined.

Lemma extract_text_from_docx_text_stream (L : libs) (w : world) :
  closed (upload w) = false → binary (upload w) = false →
  extract_text_from_docx L FileObj w =
  (Raise TypeError,
   {| fs := <[fresh (dom (fs w)) := ""]> (fs w);
      upload := IO.set_pos (String.length (content (upload w))) (upload w) |}).
Proof.
  intros Hc Hb. destruct w as [m f]. cbn in *.
  unfold extract_text_from_docx. run.
  unfold IO.read, IO.with_fs, IO.with_upload. cbn. by rewrite Hc, Hb.
Qed.

(** X11: when the copy cannot be written, the temporary file stays on
    disk. For an open text-mode upload, whose [read()] returns a [str],
    [tmp.write] raises [TypeError] before the function records that the
    file exists: [extract_text] and [extract_text_from_docx] both raise
    and leave one more file on disk, empty, under a path that was free. *)
Theorem text_stream_leaves_temp_file (L : libs) (w : world) :
  closed (upload w) = false →
  binary (upload w) = false →
  let p := fresh (dom (fs w)) in
  fs w !! p = None
  ∧ (extract_text L w).1 = Raise TypeError
  ∧ fs (extract_text L w).2 = <[p := ""]> (fs w)
  ∧ (extract_text_from_docx L FileObj w).1 = Raise TypeError
  ∧ fs (extract_text_from_docx L FileObj w).2 = <[p := ""]> (fs w).
Proof.
  intros Hc Hb p.
  rewrite extract_text_text_stream, extract_text_from_docx_text_stream by done.
  split; [apply fresh_path_free | done].
Qed.

Lemma text_stream_leaves_temp_file_witness :
  let w := {| fs := ∅; upload := text_upload "cv.docx" "Python" |} in
  (extract_text docx_only w).1 = Raise TypeError
  ∧ fs (extract_text docx_only w).2 !! 0 = Some "".
Proof.
  intros w.
  destruct (text_stream_leaves_temp_file docx_only w eq_refl eq_refl)
    as (_ & Hr & Hfs & _).
  rewrite Hr, Hfs. split; [done|]. by vm_compute.
Defined.




(** X13: handed a path, [extract_text_from_docx] changes nothing: the
    file at the path is neither removed nor rewritten and the upload is
    not touched, whether the parser returns or raises; without
    python-docx it returns [''] without opening the path. *)
Theorem docx_path_changes_nothing (L : libs) (p : nat) (w : world) :
  (extract_text_from_docx L (Path p) w).2 = w
  ∧ (docx L = None → (extract_text_from_docx L (Path p) w).1 = Ok "")
  ∧ (∀ Document bytes,
       docx L = Some Document → fs w !! p = Some bytes →
       (extract_text_from_docx L (Path p) w).1 =
       match Document bytes with
       | Ok paragraphs => Ok (paragraphs_text paragraphs)
       | Raise e => Raise e
       end).
Proof.
  rewrite extract_text_from_docx_path. cbn. unfold docx_result.
  split; [done|]. split.
  - by intros ->.
  - by intros Document bytes -> ->.
Qed.

(** ** The upload after the scoring *)

Lemma length_chars (s : string) : length (Str.chars s) = String.length s.
Proof. induction s as [|c s IH]; [done|]. cbn. by rewrite <- IH. Qed.

Lemma apply_start_score_run (L : libs) (j : job) (w : world) :
  apply_start_score L j w =
  (Ok (compute_ats_score L (job_keywords j)
         match (extract_text L w).1 with Ok t => t | Raise _ => "" end
         default_threshold),
   {| fs := fs (extract_text L w).2;
      upload := rewound (upload (extract_text L w).2) |}).
Proof.
  unfold apply_start_score, apply_start_resume_text. run.
  destruct (extract_text L w) as [[t|e] [m f]]; cbn;
    unfold IO.seek, rewound; cbn; rewrite ?or_empty_id;
    by destruct (closed f), (seekable f).
Qed.

(** X14: what is left of the upload for the application record. After
    the scoring of an open upload read as bytes, the files on disk are
    those before it, and a [read()] of the upload returns its whole
    content when the upload can seek, even if part of it had been read
    before the scoring, and nothing at all when it cannot. *)
Theorem upload_after_scoring (L : libs) (j : job) (w : world) :
  closed (upload w) = false →
  binary (upload w) = true →
  let w' := (apply_start_score L j w).2 in
  fs w' = fs w
  ∧ (IO.read w').1
    = Ok (Bytes (if seekable (upload w) then content (upload w) else "")).
Proof.
  intros Hc Hb w'. subst w'. rewrite apply_start_score_run. cbn.
  rewrite extract_text_binary by done. cbn. split; [done|].
  destruct w as [m [nm bin cont ps sk cl]]. cbn in *. subst.
  unfold IO.read, rewound. destruct sk; cbn.
  - by rewrite drop_0, of_chars_chars.
  - do 2 f_equal. unfold Str.chars, Str.of_chars.
    by rewrite <- length_chars, drop_all.
Qed.

(** An upload half read before the scoring is whole again after it. *)
Lemma upload_after_scoring_witness :
  let w := {| fs := ∅;
              upload := {| name := Some "cv.docx"; binary := true;
                           content := "PK-rest"; pos := 3;
                           seekable := true; closed := false |} |} in
  let j := {| required_skills := ["Python"]; description := "" |} in
  fs (apply_start_score docx_only j w).2 = ∅
  ∧ (IO.read (apply_start_score docx_only j w).2).1 = Ok (Bytes "PK-rest").
Proof.
  intros w j. exact (upload_after_scoring docx_only j w eq_refl eq_refl).
Defined.

(** ** Trimming *)

Lemma lstrip_fix (l : list ascii) : starts_clean l → Str.lstrip l = l.
Proof. destruct l as [|c l]; [done|]. cbn. by intros ->. Qed.

Lemma lstrip_clean (l : list ascii) : starts_clean (Str.lstrip l).
Proof.
  induction l as [|c l IH]; [done|]. cbn.
  by destruct (Char.isspace c) eqn:E.
Qed.

Lemma lstrip_snoc (l : list ascii) (c : ascii) :
  Char.isspace c = false → ∃ y, Str.lstrip (l ++ [c]) = y ++ [c].
Proof.
  intros Hc. induction l as [|d l IH]; cbn.
  - rewrite Hc. by exists [].
  - destruct (Char.isspace d); [done|]. by exists (d :: l).
Qed.

Lemma rstrip_fix (l : list ascii) : starts_clean (rev l) → Str.rstrip l = l.
Proof.
  intros H. unfold Str.rstrip. rewrite lstrip_fix by done.
  apply rev_involutive.
Qed.

Lemma rstrip_clean (l : list ascii) : starts_clean (rev (Str.rstrip l)).
Proof. unfold Str.rstrip. rewrite rev_involutive. apply lstrip_clean. Qed.

Lemma rstrip_starts_clean (l : list ascii) :
  starts_clean l → starts_clean (Str.rstrip l).
Proof.
  destruct l as [|c l]; [done|]. cbn [starts_clean]. intros Hc.
  unfold Str.rstrip. cbn [rev].
  destruct (lstrip_snoc (rev l) c Hc) as [y ->].
  by rewrite rev_app_distr.
Qed.

(** [strip] leaves nothing to trim on either side. *)
Lemma strip_clean (l : list ascii) :
  starts_clean (Str.rstrip (Str.lstrip l))
  ∧ starts_clean (rev (Str.rstrip (Str.lstrip l))).
Proof.
  split; [apply rstrip_starts_clean, lstrip_clean | apply rstrip_clean].
Qed.

Lemma strip_fix (l : list ascii) :
  starts_clean l → starts_clean (rev l) → Str.rstrip (Str.lstrip l) = l.
Proof. intros H1 H2. by rewrite lstrip_fix, rstrip_fix. Qed.

Lemma strip_idem (s : string) : Str.strip (Str.strip s) = Str.strip s.
Proof.
  unfold Str.strip. rewrite chars_of_chars. f_equal.
  apply strip_fix; apply strip_clean.
Qed.

Lemma lstrip_Forall (P : ascii → Prop) (l : list ascii) :
  Forall P l → Forall P (Str.lstrip l).
Proof.
  induction 1 as [|c l Hc Hl IH]; [done|]. cbn.
  destruct (Char.isspace c); [done | by constructor].
Qed.

Lemma strip_Forall (P : ascii → Prop) (s : string) :
  Forall P (Str.chars s) → Forall P (Str.chars (Str.strip s)).
Proof.
  intros H. unfold Str.strip, Str.rstrip. rewrite chars_of_chars.
  by apply Forall_rev, lstrip_Forall, Forall_rev, lstrip_Forall.
Qed.

Lemma truthy_iff (s : string) : Str.truthy s = true ↔ s ≠ "".
Proof. apply evaluated_iff. Qed.

(** ** Splitting at the commas *)

Lemma split_not_nil (sep : ascii) (l : list ascii) : split sep l ≠ [].
Proof.
  induction l as [|c l IH]; [done|]. cbn.
  destruct (Ascii.eqb c sep); [done|]. by destruct (split sep l).
Qed.

Lemma split_pieces (sep : ascii) (l : list ascii) :
  Forall (Forall (λ c, c ≠ sep)) (split sep l).
Proof.
  induction l as [|c l IH]; [by repeat constructor|]. cbn.
  destruct (Ascii.eqb_spec c sep) as [->|Hne]; [by constructor|].
  destruct (split sep l) as [|piece pieces]; [by repeat constructor|].
  inversion_clear IH. by repeat constructor.
Qed.

Lemma split_no_sep (sep : ascii) (l : list ascii) :
  Forall (λ c, c ≠ sep) l → split sep l = [l].
Proof.
  induction 1 as [|c l Hc Hl IH]; [done|]. cbn.
  destruct (Ascii.eqb_spec c sep) as [->|Hne]; [done|]. by rewrite IH.
Qed.

Lemma split_app_sep (sep : ascii) (x r : list ascii) :
  Forall (λ c, c ≠ sep) x → split sep (x ++ sep :: r) = x :: split sep r.
Proof.
  induction 1 as [|c l Hc Hl IH]; cbn.
  - by rewrite Ascii.eqb_refl.
  - destruct (Ascii.eqb_spec c sep) as [->|Hne]; [done|]. by rewrite IH.
Qed.

(** ** [JobForm] *)

Lemma clean_skill_ok (skills_csv : string) :
  Forall skill_ok (JobForm.clean skills_csv).
Proof.
  unfold JobForm.clean. apply list.Forall_forall. intros s Hs.
  apply list_elem_of_fmap in Hs as (piece & -> & Hp).
  apply list_elem_of_filter in Hp as [Ht Hp].
  apply list_elem_of_fmap in Hp as (l & -> & Hl).
  split; [by apply truthy_iff|]. split; [apply strip_idem|].
  apply strip_Forall. rewrite chars_of_chars.
  pose proof (split_pieces comma (Str.chars skills_csv)) as Hall.
  rewrite list.Forall_forall in Hall. by apply Hall.
Qed.

Lemma skill_ok_clean_ends (s : string) :
  skill_ok s → starts_clean (Str.chars s) ∧ starts_clean (rev (Str.chars s)).
Proof.
  intros (_ & Hs & _). rewrite <- Hs at 1 2. unfold Str.strip.
  rewrite chars_of_chars. apply strip_clean.
Qed.

Lemma strip_spaced_skill (s : string) :
  skill_ok s → Str.strip (Str.of_chars (ascii_of_nat 32 :: Str.chars s)) = s.
Proof.
  intros Hs. destruct (skill_ok_clean_ends s Hs) as [H1 H2].
  unfold Str.strip. rewrite chars_of_chars.
  change (Str.lstrip (ascii_of_nat 32 :: Str.chars s))
    with (Str.lstrip (Str.chars s)).
  rewrite strip_fix by done. apply of_chars_chars.
Qed.

Lemma split_joined_skills (x : string) (rest : list string) :
  Forall skill_ok (x :: rest) →
  split comma (Str.chars (Str.join ", " (x :: rest))) =
  Str.chars x :: map (λ y, ascii_of_nat 32 :: Str.chars y) rest.
Proof.
  revert x. induction rest as [|y rest IH]; intros x Hall.
  - inversion_clear Hall as [|? ? (_ & _ & Hx) _]. by apply split_no_sep.
  - inversion_clear Hall as [|? ? (_ & _ & Hx) Hrest].
    change (Str.join ", " (x :: y :: rest))
      with (x +:+ ", " +:+ Str.join ", " (y :: rest)).
    rewrite !chars_app.
    change (Str.chars ", ") with [comma; ascii_of_nat 32].
    cbn [app]. rewrite split_app_sep by done.
    cbn [split]. change (Ascii.eqb (ascii_of_nat 32) comma) with false.
    cbn iota. by rewrite (IH y Hrest).
Qed.

Lemma clean_initial (skills : list string) :
  Forall skill_ok skills → JobForm.clean (JobForm.initial skills) = skills.
Proof.
  intros Hall. destruct skills as [|x rest]; [done|].
  unfold JobForm.clean, JobForm.initial.
  rewrite split_joined_skills by done. cbn [map].
  rewrite of_chars_chars, map_map.
  inversion Hall as [|? ? Hx Hrest]; subst.
  rewrite filter_all.
  - cbn [map]. destruct Hx as (_ & -> & _). f_equal.
    rewrite map_map. rewrite <- (map_id rest) at 2.
    apply map_ext_Forall. eapply Forall_impl; [exact Hrest|].
    intros y Hy. by apply strip_spaced_skill.
  - intros z Hz. apply truthy_iff.
    apply elem_of_cons in Hz as [-> | Hz].
    + by destruct Hx as (? & -> & _).
    + apply list_elem_of_fmap in Hz as (y & -> & Hy).
      rewrite list.Forall_forall in Hrest.
      rewrite strip_spaced_skill by by apply Hrest.
      by destruct (Hrest y Hy).
Qed.

(** X15: the skills [JobForm.clean] stores are never empty, carry no
    whitespace at either end and contain no comma, whatever is typed in
    the field. *)
Theorem job_form_skills_shape (skills_csv : string) :
  Forall (λ s, s ≠ "" ∧ Str.strip s = s
               ∧ Forall (λ c, c ≠ comma) (Str.chars s))
         (JobForm.clean skills_csv).
Proof. apply clean_skill_ok. Qed.

(** X16: editing a posting keeps its skills. The field shows the stored
    skills joined by ", "; cleaning that text gives the stored list back,
    for every list of skills that are not empty, trimmed and free of
    commas, and so for every list that [JobForm.clean] itself stored. *)
Theorem job_form_round_trip :
  (∀ skills,
     Forall skill_ok skills →
     JobForm.clean (JobForm.initial skills) = skills)
  ∧ (∀ skills_csv,
       JobForm.clean (JobForm.initial (JobForm.clean skills_csv))
       = JobForm.clean skills_csv).
Proof.
  split; [apply clean_initial|].
  intros skills_csv. apply clean_initial, clean_skill_ok.
Qed.

(** X17: for the skills a posting gets through [JobForm], every keyword
    is evaluated: the matched and the missing keywords together are a
    permutation of the skills, and their number is the total the score
    divides by. *)
Theorem job_form_skills_all_scored (L : libs) (skills_csv T : string)
    (thr : float) :
  let K := JobForm.clean skills_csv in
  let r := compute_ats_score L K T thr in
  matched_of r ++ missing_of r ≡ₚ K
  ∧ length (matched_of r) + length (missing_of r) = length K
  ∧ score_of r =
    round1 (100 * (len (matched_of r)
                   / match K with
                     | [] => 1
                     | _ :: _ => float_of_Z (Z.of_nat (length (matched_of r)
                                                      + length (missing_of r)))
                     end))%float.
Proof.
  intros K r.
  assert (Hperm : matched_of r ++ missing_of r ≡ₚ K).
  { subst r. rewrite matched_missing_permutation. rewrite filter_all; [done|].
    intros kw Hkw. pose proof (clean_skill_ok skills_csv) as Hok.
    rewrite list.Forall_forall in Hok. by destruct (Hok kw Hkw). }
  assert (Hlen : length (matched_of r) + length (missing_of r) = length K).
  { by rewrite <- length_app, Hperm. }
  split; [done|]. split; [done|].
  subst r. rewrite score_of_spec. cbv zeta. by rewrite Hlen.
Qed.

(** ** [ApplyChooseForm] *)

(** X18: an upload that [clean_uploaded_resume] accepts is at most 5 MiB
    long and its lower-cased name ends in ".pdf" or in ".docx"; so for
    the uploads that pass the form, [extract_text] takes the DOCX suffix
    only for names ending in ".docx". *)
Theorem accepted_upload_suffix (f : stream) :
  ApplyChooseForm.file_truthy f = true →
  ApplyChooseForm.clean_uploaded_resume (Some f) = Valid (Some f) →
  let name := Str.lower (default "" (name f)) in
  (String.length (content f) ≤ 5 * 1024 * 1024)
  ∧ ((suffix_of f = ".pdf" ∧ endswith name ".pdf" = true)
     ∨ (suffix_of f = ".docx" ∧ endswith name ".docx" = true)).
Proof.
  intros Ht Hv name0. unfold ApplyChooseForm.clean_uploaded_resume in Hv.
  rewrite Ht in Hv. cbn [negb] in Hv. fold name0 in Hv.
  unfold suffix_of. fold name0.
  destruct (endswith name0 ".pdf") eqn:Hpdf;
    destruct (endswith name0 ".docx") eqn:Hdocx; cbn in Hv; try done;
    (destruct (N.ltb_spec (5 * 1024 * 1024) (ApplyChooseForm.size f))
       as [Hlt|Hle]; [done|]);
    (split; [unfold ApplyChooseForm.size in Hle; lia | auto]).
Qed.

Lemma accepted_upload_suffix_witness :
  String.length "PK..." ≤ 5 * 1024 * 1024
  ∧ ((suffix_of (sample_upload "CV.Docx" "PK...") = ".pdf"
      ∧ endswith "cv.docx" ".pdf" = true)
     ∨ (suffix_of (sample_upload "CV.Docx" "PK...") = ".docx"
        ∧ endswith "cv.docx" ".docx" = true)).
Proof.
  exact (accepted_upload_suffix (sample_upload "CV.Docx" "PK...")
           eq_refl eq_refl).
Defined.

(** ** The tokenizer across separators *)

Lemma findall_from_prev (p1 p2 : option ascii) (skip : nat) (l : list ascii) :
  Regex.word_of p1 = Regex.word_of p2 →
  Regex.findall_from p1 skip l = Regex.findall_from p2 skip l.
Proof.
  intros H. destruct l as [|c l]; [done|]. cbn.
  unfold Regex.boundary. by rewrite H.
Qed.

Lemma best_length (c : ascii) (rest : list ascii) (n : nat) :
  Regex.best c rest = Some n → n ≤ length rest.
Proof.
  intros H. pose proof (best_spec c rest) as Hb. rewrite H in Hb.
  destruct Hb as [[Hall _] _]. destruct n as [|m]; [lia|].
  destruct (Hall m) as (d & Hd & _); [lia|].
  apply lookup_lt_Some in Hd. lia.
Qed.

Lemma best_before_separator (sep c : ascii) (a b : list ascii) :
  separator sep → Regex.best c (a ++ sep :: b) = Regex.best c a.
Proof.
  intros [Hcl Hw]. revert c. induction a as [|d a IH]; intros c.
  - cbn. rewrite Hcl. unfold Regex.boundary. cbn. by rewrite Hw.
  - cbn. by rewrite IH.
Qed.

Lemma findall_from_separator (sep : ascii) (a b : list ascii)
    (prev : option ascii) (skip : nat) :
  separator sep → skip ≤ length a →
  Regex.findall_from prev skip (a ++ sep :: b) =
  Regex.findall_from prev skip a ++ Regex.findall_from None 0 b.
Proof.
  intros Hsep. revert prev skip. induction a as [|c a IH]; intros prev skip Hs.
  - cbn in Hs. replace skip with 0 by lia. cbn.
    destruct Hsep as [-> Hw]. rewrite andb_false_r.
    apply findall_from_prev. cbn. by rewrite Hw.
  - cbn [app Regex.findall_from]. destruct skip as [|k].
    + rewrite best_before_separator by done.
      destruct (Regex.boundary prev (Some c) && Char.in_class c);
        [|apply IH; lia].
      destruct (Regex.best c a) as [n|] eqn:Hn; [|apply IH; lia].
      pose proof (best_length c a n Hn).
      rewrite IH by done. by rewrite take_app_le.
    + apply IH. cbn in Hs. lia.
Qed.

Lemma lower_char_separator (sep : ascii) :
  separator sep → separator (Char.lower sep).
Proof.
  unfold separator. by destruct sep as [[] [] [] [] [] [] [] []].
Qed.

(** The tokens of two texts joined by a separator are the tokens of the
    first followed by the tokens of the second. *)
Lemma normalize_tokens_app (sep : ascii) (x y : string) :
  separator sep →
  normalize_tokens (x +:+ String sep y) =
  normalize_tokens x ++ normalize_tokens y.
Proof.
  intros Hsep. rewrite <- !findall_lower_normalize. unfold Regex.findall.
  rewrite !chars_lower, chars_app. cbn [Str.chars list_ascii_of_string].
  rewrite map_app. cbn [map].
  rewrite (findall_from_separator (Char.lower sep)); [|by apply lower_char_separator | lia].
  by rewrite map_app.
Qed.

Lemma separator_space : separator (ascii_of_nat 32).
Proof. done. Qed.

Lemma separator_newline : separator (ascii_of_nat 10).
Proof. done. Qed.

Lemma normalize_tokens_join (sep : ascii) (l : list string) :
  separator sep →
  normalize_tokens (Str.join (String sep "") l) =
  concat (map normalize_tokens l).
Proof.
  intros Hsep. induction l as [|x l IH]; [done|].
  destruct l as [|y l].
  - cbn [map concat]. by rewrite app_nil_r.
  - change (Str.join (String sep "") (x :: y :: l))
      with (x +:+ String sep "" +:+ Str.join (String sep "") (y :: l)).
    change (String sep "" +:+ ?z) with (String sep z).
    rewrite normalize_tokens_app, IH by done. done.
Qed.

(** ** The tokens of a structured resume *)

(** The text of a record, from its parts. *)
Lemma resume_text_parts (r : resume_json) :
  resume_json_to_text r =
  Str.join nl (filter (λ p, p ≠ "") (resume_parts r)).
Proof.
  unfold resume_json_to_text, resume_parts.
  rewrite !append_each_map. cbn [app].
  rewrite <- !app_assoc. cbn [app].
  f_equal.
  assert (Hfield : ∀ d k, get_str (default ∅ d) k = field d k).
  { intros [m|] k; unfold get_str, field; simpl; [done|].
    by rewrite lookup_empty. }
  assert (Hline : ∀ k1 k2 k3 k4 e,
             join_fields [k1; k2; k3; k4] e = line e k1 k2 k3 k4).
  { intros. unfold join_fields, line, field, get_str. simpl.
    by repeat destruct (e !! _). }
  rewrite !Hfield.
  unfold education_keys, experience_keys, project_keys.
  rewrite !(map_ext _ _ (Hline _ _ _ _)).
  assert (Hflt : ∀ l : list string,
             filter (λ p, Str.truthy p = true) l = filter (λ p, p ≠ "") l).
  { intros l. apply list_filter_iff. intros p. apply evaluated_iff. }
  rewrite Hflt. by destruct (summary r), (education r), (experience r),
    (projects r), (skills r), (achievements r).
Qed.

Lemma concat_tokens_filter (l : list string) :
  concat (map normalize_tokens (filter (λ p, p ≠ "") l))
  = concat (map normalize_tokens l).
Proof.
  induction l as [|p l IH]; [done|]. rewrite filter_cons.
  destruct (decide (p ≠ "")) as [Hp|Hp]; cbn [map concat]; [by rewrite IH|].
  destruct p; [|by exfalso; apply Hp]. by rewrite IH.
Qed.

(** X19: a character that is neither of the class nor a word character
    (a space, a newline, a comma) cuts the text for the tokenizer: the
    tokens of two texts joined by it are the tokens of the first followed
    by the tokens of the second, and the tokens of a list of texts joined
    by it are the tokens of each text, in order. *)
Theorem tokens_across_separator (sep : ascii) :
  Char.in_class sep = false → Char.is_word sep = false →
  (∀ x y, normalize_tokens (x +:+ String sep y)
          = normalize_tokens x ++ normalize_tokens y)
  ∧ (∀ l, normalize_tokens (Str.join (String sep "") l)
          = concat (map normalize_tokens l)).
Proof.
  intros Hc Hw. split.
  - intros x y. by apply normalize_tokens_app.
  - intros l. by apply normalize_tokens_join.
Qed.

Lemma tokens_across_separator_witness :
  normalize_tokens ("REST APIs" +:+ String (ascii_of_nat 10) "C++ and SQL")
  = normalize_tokens "REST APIs" ++ normalize_tokens "C++ and SQL".
Proof.
  destruct (tokens_across_separator (ascii_of_nat 10) eq_refl eq_refl)
    as [H _].
  exact (H "REST APIs" "C++ and SQL").
Defined.

Lemma resume_tokens_parts (r : resume_json) :
  normalize_tokens (resume_json_to_text r)
  = concat (map normalize_tokens (resume_parts r)).
Proof.
  rewrite resume_text_parts.
  change nl with (String (ascii_of_nat 10) "").
  rewrite normalize_tokens_join by apply separator_newline.
  apply concat_tokens_filter.
Qed.

(** X20: the tokens of the text of a structured resume are the tokens of
    its parts, part by part in the order of the text: name, headline,
    location, summary, the education, experience and project entries,
    the skills, the achievements. *)
Theorem resume_tokens_by_part (r : resume_json) :
  normalize_tokens (resume_json_to_text r)
  = concat (map normalize_tokens (resume_parts r)).
Proof. apply resume_tokens_parts. Qed.

Lemma elem_of_concat {A} (x : A) (ls : list (list A)) :
  x ∈ concat ls ↔ ∃ l, x ∈ l ∧ l ∈ ls.
Proof.
  induction ls as [|l ls IH]; cbn.
  - split; [intros H; by apply not_elem_of_nil in H|].
    intros (l & _ & H). by apply not_elem_of_nil in H.
  - rewrite elem_of_app, IH. split.
    + intros [H|(l' & H1 & H2)].
      * exists l. split; [done | apply list_elem_of_here].
      * exists l'. split; [done | by apply list_elem_of_further].
    + intros (l' & H1 & H2). apply elem_of_cons in H2 as [->|H2]; [by left|].
      right. by exists l'.
Qed.

Lemma skill_tokens_in_resume (r : resume_json) (l : list string) (s t : string) :
  skills r = Some l → s ∈ l → t ∈ normalize_tokens s →
  t ∈ normalize_tokens (resume_json_to_text r).
Proof.
  intros Hsk Hs Ht. rewrite resume_tokens_parts.
  apply elem_of_concat. exists (normalize_tokens (Str.join " " l)).
  split.
  - change " " with (String (ascii_of_nat 32) "").
    rewrite normalize_tokens_join by apply separator_space.
    apply elem_of_concat. exists (normalize_tokens s). split; [done|].
    apply list_elem_of_fmap. by exists s.
  - apply list_elem_of_fmap. exists (Str.join " " l). split; [done|].
    unfold resume_parts. rewrite Hsk. rewrite !elem_of_app.
    do 4 right. apply list_elem_of_here.
Qed.

(** X21: a keyword whose trimmed, lower-cased form is a token of one of
    the skills of a structured resume is matched against the text of
    that resume. *)
Theorem skill_keyword_matched (L : libs) (r : resume_json)
    (K l : list string) (kw s : string) (thr : float) :
  skills r = Some l → s ∈ l →
  kw ∈ K → kw ≠ "" →
  Str.lower (Str.strip kw) ∈ normalize_tokens s →
  kw ∈ matched_of (compute_ats_score L K (resume_json_to_text r) thr).
Proof.
  intros Hsk Hs HK Hne Hk.
  rewrite matched_of_spec, list_elem_of_filter. split; [|done].
  split; [by apply evaluated_iff|]. apply hit_iff.
  pose proof (skill_tokens_in_resume r l s _ Hsk Hs Hk) as Hin.
  apply match_tier_exact with (L := L) (thr := thr)
    (rt := Str.join " " (normalize_tokens (resume_json_to_text r))) in Hin.
  by rewrite Hin.
Qed.

Lemma skill_keyword_matched_witness :
  " PYTHON " ∈ matched_of (compute_ats_score no_libs [" PYTHON "; "AWS"]
                             (resume_json_to_text sample_resume)
                             default_threshold).
Proof.
  apply (skill_keyword_matched no_libs sample_resume [" PYTHON "; "AWS"]
           ["Python 3"; "SQL"] " PYTHON " "Python 3" default_threshold).
  - reflexivity.
  - apply list_elem_of_here.
  - apply list_elem_of_here.
  - discriminate.
  - vm_compute. apply list_elem_of_here.
Defined.

(** ** Tokens of plain text *)

Section Plain.

Variable s : list ascii.
Hypothesis Hplain : plain s.

Lemma plain_class_at (t : nat) (c : ascii) :
  s !! t = Some c → Char.is_word c = true → class_at s t.
Proof.
  intros Hc Hw. exists c. split; [done|].
  unfold plain in Hplain. rewrite list.Forall_forall in Hplain.
  apply Hplain; [|done]. by eapply list_elem_of_lookup_2.
Qed.

(** From a word character at [b], the run of word characters ends at a
    word boundary. *)
Lemma word_run_right (n b : nat) (c : ascii) :
  length s - b ≤ n → s !! b = Some c → Char.is_word c = true →
  ∃ e, b < e ∧ (∀ t, b ≤ t < e → class_at s t) ∧ at_boundary s e.
Proof.
  revert b c. induction n as [|n IH]; intros b c Hn Hc Hw.
  { apply lookup_lt_Some in Hc. lia. }
  destruct (s !! S b) as [d|] eqn:Hd.
  - destruct (Char.is_word d) eqn:Hdw.
    + destruct (IH (S b) d) as (e & He & Hall & Hb); [lia | done | done |].
      exists e. split; [lia|]. split; [|done].
      intros t Ht. destruct (decide (t = b)) as [->|Hne].
      * by eapply plain_class_at.
      * apply Hall. lia.
    + exists (S b). split; [lia|]. split.
      * intros t Ht. replace t with b by lia. by eapply plain_class_at.
      * unfold at_boundary, before, Regex.boundary. rewrite Hc, Hd. cbn.
        by rewrite Hw, Hdw.
  - exists (S b). split; [lia|]. split.
    + intros t Ht. replace t with b by lia. by eapply plain_class_at.
    + unfold at_boundary, before, Regex.boundary. rewrite Hc, Hd. cbn.
      by rewrite Hw.
Qed.

(** Up to a word character at [a], the run of word characters starts at
    a word boundary. *)
Lemma word_run_left (a : nat) (c : ascii) :
  s !! a = Some c → Char.is_word c = true →
  ∃ a', a' ≤ a ∧ (∀ t, a' ≤ t ≤ a → class_at s t) ∧ at_boundary s a'.
Proof.
  revert c. induction a as [|a IH]; intros c Hc Hw.
  - exists 0. split; [lia|]. split.
    + intros t Ht. replace t with 0 by lia. by eapply plain_class_at.
    + unfold at_boundary, before, Regex.boundary. rewrite Hc. cbn.
      by rewrite Hw.
  - destruct (s !! a) as [d|] eqn:Hd.
    2: { apply lookup_ge_None in Hd. apply lookup_lt_Some in Hc. lia. }
    destruct (Char.is_word d) eqn:Hdw.
    + destruct (IH d) as (a' & Ha' & Hall & Hb); [done | done |].
      exists a'. split; [lia|]. split; [|done].
      intros t Ht. destruct (decide (t = S a)) as [->|Hne].
      * by eapply plain_class_at.
      * apply Hall. lia.
    + exists (S a). split; [lia|]. split.
      * intros t Ht. replace t with (S a) by lia. by eapply plain_class_at.
      * unfold at_boundary, before, Regex.boundary. rewrite Hc, Hd. cbn.
        by rewrite Hw, Hdw.
Qed.

(** A token span of plain text starts and ends with a word character. *)
Lemma token_span_word_ends (a b : nat) :
  token_span s a b →
  (∃ c, s !! a = Some c ∧ Char.is_word c = true)
  ∧ (∃ c, before s b = Some c ∧ Char.is_word c = true).
Proof.
  intros [(Hlt & Hall & Hba & Hbb) Hmax]. split.
  - destruct (Hall a) as (c & Hc & Hcl); [lia|]. exists c. split; [done|].
    destruct (Char.is_word c) eqn:Hw; [done|]. exfalso.
    unfold at_boundary, Regex.boundary in Hba. rewrite Hc in Hba.
    cbn in Hba. rewrite Hw, xorb_false_r in Hba.
    destruct a as [|a0]; [done|]. cbn in Hba.
    destruct (s !! a0) as [d|] eqn:Hd; [|done]. cbn in Hba.
    destruct (word_run_left a0 d Hd Hba) as (a' & Ha' & Hall' & Hb').
    destruct (Hmax a' b) as [Heq _]; [lia | lia | | lia].
    split; [lia|]. split; [|done].
    intros t Ht. destruct (decide (t ≤ a0)); [apply Hall' | apply Hall]; lia.
  - destruct b as [|b0]; [lia|]. cbn [before].
    destruct (Hall b0) as (c & Hc & Hcl); [lia|]. exists c. split; [done|].
    destruct (Char.is_word c) eqn:Hw; [done|]. exfalso.
    unfold at_boundary, Regex.boundary in Hbb. cbn [before] in Hbb.
    rewrite Hc in Hbb. cbn in Hbb. rewrite Hw in Hbb. cbn in Hbb.
    destruct (s !! S b0) as [d|] eqn:Hd; [|done]. cbn in Hbb.
    destruct (word_run_right (length s) (S b0) d) as (e & He & Hall' & Hb');
      [lia | done | done |].
    destruct (Hmax a e) as [_ Heq]; [lia | lia | | lia].
    split; [lia|]. split; [|done].
    intros t Ht. destruct (decide (t < S b0)); [apply Hall | apply Hall']; lia.
Qed.

End Plain.

Lemma plain_lower (l : list ascii) : plain l → plain (map Char.lower l).
Proof.
  unfold plain. intros H. apply Forall_map. eapply Forall_impl; [exact H|].
  intros c. by destruct c as [[] [] [] [] [] [] [] []].
Qed.

Lemma sub_lookup_lt (s : list ascii) (a b i : nat) :
  i < b - a → sub s a b !! i = s !! (a + i).
Proof. intros Hi. unfold sub. by rewrite lookup_take_lt, lookup_drop. Qed.

Lemma sub_length (s : list ascii) (a b : nat) :
  b ≤ length s → length (sub s a b) = b - a.
Proof. intros H. unfold sub. rewrite length_take, length_drop. lia. Qed.

Lemma plain_token_ends (T t : string) :
  plain (Str.chars T) → t ∈ normalize_tokens T →
  (∃ c, head (Str.chars t) = Some c ∧ Char.is_word c = true)
  ∧ (∃ c, last (Str.chars t) = Some c ∧ Char.is_word c = true).
Proof.
  intros Hp Ht. apply plain_lower in Hp.
  destruct (normalize_tokens_spans T) as (spans & Htok & Hspan).
  set (s := map Char.lower (Str.chars T)) in *.
  rewrite Htok in Ht. apply list_elem_of_fmap in Ht as ([a b] & -> & Hab).
  cbn [fst snd]. rewrite chars_of_chars. apply Hspan in Hab.
  destruct (token_span_word_ends s Hp a b Hab) as [(c & Hc & Hcw) (d & Hd & Hdw)].
  destruct Hab as [(Hlt & Hall & _) _].
  assert (Hb : b ≤ length s).
  { destruct (Hall (b - 1)) as (x & Hx & _); [lia|].
    apply lookup_lt_Some in Hx. lia. }
  split.
  - exists c. split; [|done]. rewrite head_lookup, sub_lookup_lt by lia.
    by rewrite Nat.add_0_r.
  - exists d. split; [|done]. rewrite last_lookup, sub_length by done.
    rewrite sub_lookup_lt by lia. destruct b as [|b0]; [lia|].
    cbn [before] in Hd. rewrite <- Hd. f_equal. lia.
Qed.

(** X22: in a text without underscore and without letters or digits
    outside ASCII, every token starts and ends with a letter or a digit:
    the symbols of the class are kept only inside a token. So a keyword
    whose trimmed, lower-cased form ends with a character that is not a
    word character, as "C++" or "C#", is never a token of such a text:
    the exact tier does not match it. *)
Theorem plain_text_tokens (L : libs) (thr : float) (T : string) :
  plain (Str.chars T) →
  (∀ t, t ∈ normalize_tokens T →
        (∃ c, head (Str.chars t) = Some c ∧ Char.is_word c = true)
        ∧ (∃ c, last (Str.chars t) = Some c ∧ Char.is_word c = true))
  ∧ (∀ kw c,
       last (Str.chars (Str.lower (Str.strip kw))) = Some c →
       Char.is_word c = false →
       match_tier L thr (Str.lower (Str.strip kw)) (normalize_tokens T)
                  (Str.join " " (normalize_tokens T)) ≠ Some Exact).
Proof.
  intros Hp. split; [intros t; by apply plain_token_ends|].
  intros kw c Hlast Hc He. apply match_tier_exact in He.
  destruct (plain_token_ends T _ Hp He) as [_ (d & Hd & Hdw)].
  rewrite Hlast in Hd. injection Hd as <-. congruence.
Qed.

(** "C++" against a resume that names C++: the token is "c", and without
    a fuzzy matcher the keyword is missing. *)
Lemma plain_text_tokens_witness :
  normalize_tokens "C++ developer" = ["c"; "developer"]
  ∧ match_tier no_libs default_threshold (Str.lower (Str.strip "C++"))
      (normalize_tokens "C++ developer")
      (Str.join " " (normalize_tokens "C++ developer")) ≠ Some Exact
  ∧ missing_of (compute_ats_score no_libs ["C++"] "C++ developer"
                  default_threshold) = ["C++"].
Proof.
  split; [reflexivity|]. split; [|reflexivity].
  assert (Hp : plain (Str.chars "C++ developer")).
  { unfold plain. by repeat constructor. }
  destruct (plain_text_tokens no_libs default_threshold "C++ developer" Hp)
    as [_ H].
  apply (H "C++" (ascii_of_nat 43)); reflexivity.
Defined.
